(** * Service-mesh simulation: circuit breaker, retry handler and gateway

    A shallow embedding of the resilience layer of the repository:

    - [models.py]: [CircuitState], [CircuitBreaker];
    - [mesh/circuit_breaker.py]: [CircuitBreakerManager] with [get_breaker],
      [call_service], [_should_attempt_reset], [get_status], [reset_breaker];
    - [mesh/retry_handler.py]: [RetryHandler] with [retry_call], [should_retry];
    - [gateway.py]: [ServiceMeshGateway.call_with_mesh] and the route
      handlers that forward through it.

    Modelling choices.

    - Execution is sequential: one coroutine runs from its call to its return
      and no other coroutine is interleaved at its [await] points.
    - A Python [int] is a [Z]; a [datetime] is a [Z] counting microseconds,
      so that a [timedelta(seconds=s)] is [s * 1000000].
    - A [float] (delays, jitter) is the rational [Q] it stands for.  The
      product [base_delay * 2 ** (attempt - 1)] is exact in binary floating
      point; the conversion of [2 ** (attempt - 1)] to a [float] fails from
      attempt 1025 on, which [retry_loop] models; the sum of the delay and
      the jitter is kept exact here, where the code rounds it to the nearest
      [float], which is never below the delay when the jitter is not
      negative.
    - An exception is the value raised; only its message [str(e)] is ever
      inspected by the code, so an exception is a record holding the message.
      A backend operation returns or raises an [Exception]; what a call
      leaves in the registry when its operation ends with another
      [BaseException] is [call_service_abandoned].
    - Strings are sequences of 8-bit characters; [lower] folds ASCII letters.
    - Everything outside the mesh (the clock, the random generator, the
      scheduler's sleep and the state of the backends) is an abstract
      [World]; a backend operation is a function from the world to an
      outcome and a new world.  The embedding records every backend
      invocation and every sleep in a trace.
    - [print] calls write to the console only and are left out. *)

From Stdlib Require Import Ascii String QArith Qround Lqa.
From stdpp Require Import gmap strings list fin_maps.

Local Open Scope Z_scope.

(** ** Strings *)

(** Python's [sub in s] on strings. *)
Fixpoint contains (sub s : string) : bool :=
  String.prefix sub s ||
  match s with
  | EmptyString => false
  | String _ s' => contains sub s'
  end.

Definition lower_ascii (c : ascii) : ascii :=
  let n := N_of_ascii c in
  if ((65 <=? n) && (n <=? 90))%N then ascii_of_N (n + 32) else c.

(** Python's [s.lower()], on ASCII. *)
Fixpoint lower (s : string) : string :=
  match s with
  | EmptyString => EmptyString
  | String c s' => String (lower_ascii c) (lower s')
  end.

(** ** models.py *)

Inductive CircuitState := CLOSED | OPEN | HALF_OPEN.

Record CircuitBreaker := mkCircuitBreaker {
  service_name : string;
  state : CircuitState;
  failure_count : Z;
  last_failure_time : option Z;
  failure_threshold : Z;
  timeout_seconds : Z
}.

(** Attribute assignments [breaker.f = v]. *)
Definition set_state (v : CircuitState) (b : CircuitBreaker) : CircuitBreaker :=
  mkCircuitBreaker (service_name b) v (failure_count b) (last_failure_time b)
                   (failure_threshold b) (timeout_seconds b).

Definition set_failure_count (v : Z) (b : CircuitBreaker) : CircuitBreaker :=
  mkCircuitBreaker (service_name b) (state b) v (last_failure_time b)
                   (failure_threshold b) (timeout_seconds b).

Definition set_last_failure_time (v : option Z) (b : CircuitBreaker) : CircuitBreaker :=
  mkCircuitBreaker (service_name b) (state b) (failure_count b) v
                   (failure_threshold b) (timeout_seconds b).

(** ** Exceptions and outcomes *)

Record Exception := mkException { str : string }.

Inductive outcome (A : Type) :=
| Return (a : A)
| Raise (e : Exception).
Arguments Return {A} a.
Arguments Raise {A} e.

(** ** The world outside the mesh *)

Class Runtime := {
  World : Type;
  (** [datetime.now()], in microseconds *)
  datetime_now : World -> Z;
  (** [random.uniform(a, b)] *)
  random_uniform : Q -> Q -> World -> Q * World;
  (** what [await asyncio.sleep(d)] does to the world *)
  asyncio_sleep : Q -> World -> World
}.

Section Mesh.

Context `{RT : Runtime}.
(** The type of the values the backend operations return. *)
Context {Result : Type}.

(** An awaitable backend operation with its arguments applied. *)
Definition Callable : Type := World -> outcome Result * World.

Inductive event :=
| Invoked (o : outcome Result)
| Slept (d : Q).

Record Run := mkRun {
  world : World;
  trace : list event
}.

(** [await func( *args, **kwargs)] *)
Definition invoke (func : Callable) (r : Run) : outcome Result * Run :=
  let '(o, w) := func (world r) in
  (o, mkRun w (trace r ++ [Invoked o])).

(** [await asyncio.sleep(d)] *)
Definition sleep (d : Q) (r : Run) : Run :=
  mkRun (asyncio_sleep d (world r)) (trace r ++ [Slept d]).

(** [random.uniform(a, b)] *)
Definition uniform (a b : Q) (r : Run) : Q * Run :=
  let '(x, w) := random_uniform a b (world r) in
  (x, mkRun w (trace r)).

(** The outcomes of the backend invocations of a trace, in order. *)
Fixpoint invocations (tr : list event) : list (outcome Result) :=
  match tr with
  | [] => []
  | Invoked o :: tr' => o :: invocations tr'
  | Slept _ :: tr' => invocations tr'
  end.

(** The durations passed to [asyncio.sleep] in a trace, in order. *)
Fixpoint sleeps (tr : list event) : list Q :=
  match tr with
  | [] => []
  | Invoked _ :: tr' => sleeps tr'
  | Slept d :: tr' => d :: sleeps tr'
  end.

Definition total (ds : list Q) : Q := foldr Qplus 0%Q ds.

(** ** mesh/circuit_breaker.py *)

Record CircuitBreakerManager := mkCircuitBreakerManager {
  breakers : gmap string CircuitBreaker;
  self_failure_threshold : Z;
  self_timeout_seconds : Z
}.

(** [CircuitBreakerManager.__init__] *)
Definition CircuitBreakerManager_init : CircuitBreakerManager :=
  mkCircuitBreakerManager ∅ 3 30.

Definition set_breakers (m : gmap string CircuitBreaker)
    (self : CircuitBreakerManager) : CircuitBreakerManager :=
  mkCircuitBreakerManager m (self_failure_threshold self) (self_timeout_seconds self).

(** A mutation of the breaker object stored under [name]. *)
Definition store (name : string) (b : CircuitBreaker)
    (self : CircuitBreakerManager) : CircuitBreakerManager :=
  set_breakers (<[name := b]> (breakers self)) self.

Definition get_breaker (self : CircuitBreakerManager) (name : string)
    : CircuitBreaker * CircuitBreakerManager :=
  match breakers self !! name with
  | Some b => (b, self)
  | None =>
      let b := mkCircuitBreaker name CLOSED 0 None
                 (self_failure_threshold self) (self_timeout_seconds self) in
      (b, store name b self)
  end.

(** [timedelta(seconds=s)] in microseconds *)
Definition timedelta_seconds (s : Z) : Z := s * 1000000.

Definition _should_attempt_reset (breaker : CircuitBreaker) (now : Z) : bool :=
  match last_failure_time breaker with
  | None => true
  | Some t => timedelta_seconds (timeout_seconds breaker) <? now - t
  end.

(** The exception of line 37. *)
Definition circuit_open_exception (name : string) : Exception :=
  mkException ("Circuit breaker OPEN for " ++ name ++ " - service unavailable")%string.

(** Lines 31-37 of [call_service]: the check made before the call. *)
Definition check_circuit (name : string) (breaker : CircuitBreaker) (now : Z)
    : Exception + CircuitBreaker :=
  match state breaker with
  | OPEN =>
      if _should_attempt_reset breaker now
      then inr (set_state HALF_OPEN breaker)
      else inl (circuit_open_exception name)
  | _ => inr breaker
  end.

(** Lines 43-49: the bookkeeping after a successful call. *)
Definition on_success (breaker : CircuitBreaker) : CircuitBreaker :=
  match state breaker with
  | HALF_OPEN => set_failure_count 0 (set_state CLOSED breaker)
  | CLOSED => set_failure_count 0 breaker
  | OPEN => breaker
  end.

(** Lines 54-63: the bookkeeping after a failed call. *)
Definition on_failure (breaker : CircuitBreaker) (now : Z) : CircuitBreaker :=
  let breaker := set_failure_count (failure_count breaker + 1) breaker in
  let breaker := set_last_failure_time (Some now) breaker in
  if failure_threshold breaker <=? failure_count breaker
  then set_state OPEN breaker
  else breaker.

Definition call_service (self : CircuitBreakerManager) (name : string)
    (service_func : Callable) (r : Run)
    : outcome Result * CircuitBreakerManager * Run :=
  let '(breaker, self) := get_breaker self name in
  match check_circuit name breaker (datetime_now (world r)) with
  | inl e => (Raise e, self, r)
  | inr breaker =>
      let self := store name breaker self in
      match invoke service_func r with
      | (Return result, r') =>
          (Return result, store name (on_success breaker) self, r')
      | (Raise e, r') =>
          (Raise e, store name (on_failure breaker (datetime_now (world r'))) self, r')
      end
  end.

Record BreakerStatus := mkBreakerStatus {
  status_state : CircuitState;
  status_failure_count : Z;
  status_last_failure : option Z
}.

Definition get_status (self : CircuitBreakerManager)
    : gmap string BreakerStatus * CircuitBreakerManager :=
  ((fun breaker => mkBreakerStatus (state breaker) (failure_count breaker)
                     (last_failure_time breaker)) <$> breakers self,
   self).

Definition reset_breaker (self : CircuitBreakerManager) (name : string)
    : bool * CircuitBreakerManager :=
  match breakers self !! name with
  | Some breaker =>
      let breaker := set_state CLOSED breaker in
      let breaker := set_failure_count 0 breaker in
      let breaker := set_last_failure_time None breaker in
      (true, store name breaker self)
  | None => (false, self)
  end.

(** ** mesh/retry_handler.py *)

Record RetryHandler := mkRetryHandler {
  max_attempts : Z;
  base_delay : Q
}.

(** Python's [range(a, b)]. *)
Definition range (a b : Z) : list Z := seqZ a (b - a).

(** [raise last_exception]; raising [None] is a [TypeError]. *)
Definition raise_last (last_exception : option Exception) : outcome Result :=
  match last_exception with
  | Some e => Raise e
  | None => Raise (mkException "exceptions must derive from BaseException")
  end.

(** Lines 37-43 of [retry_call]: the wait before the next attempt. *)
Definition backoff (self : RetryHandler) (attempt : Z) (r : Run) : Run :=
  let delay := (base_delay self * inject_Z (2 ^ (attempt - 1)))%Q in
  let '(jitter, r) := uniform 0%Q (1 # 10)%Q r in
  let total_delay := (delay + jitter)%Q in
  sleep total_delay r.

(** In line 38 the [int] [2 ** (attempt - 1)] is converted to a [float] for
    the product with [base_delay]; an [int] of [2 ** 1024] or more does not
    convert, and the product raises this [OverflowError]. *)
Definition overflow_error : Exception :=
  mkException "int too large to convert to float".

Definition delay_overflows (attempt : Z) : bool := 1024 <=? attempt - 1.

(** The [for attempt in range(1, self.max_attempts + 1)] loop of
    [retry_call], over the attempts that are left, followed by lines 45-47.
    The [OverflowError] of line 38 is raised inside the [except] block, so
    that it leaves the loop and [retry_call]. *)
Fixpoint retry_loop (self : RetryHandler) (func : Callable) (attempts : list Z)
    (last_exception : option Exception) (r : Run) : outcome Result * Run :=
  match attempts with
  | [] => (raise_last last_exception, r)
  | attempt :: attempts' =>
      match invoke func r with
      | (Return result, r) => (Return result, r)
      | (Raise e, r) =>
          if attempt <? max_attempts self then
            if delay_overflows attempt then (Raise overflow_error, r)
            else retry_loop self func attempts' (Some e) (backoff self attempt r)
          else retry_loop self func attempts' (Some e) r
      end
  end.

Definition retry_call (self : RetryHandler) (name : string) (func : Callable)
    (r : Run) : outcome Result * Run :=
  retry_loop self func (range 1 (max_attempts self + 1)) None r.

Definition non_retryable : list string :=
  ["not found"; "unauthorized"; "forbidden"; "bad request"]%string.

(** The [for non_retry in non_retryable] loop of [should_retry]. *)
Fixpoint should_retry_loop (l : list string) (error_message : string) : bool :=
  match l with
  | [] => true
  | non_retry :: l' =>
      if contains non_retry error_message then false
      else should_retry_loop l' error_message
  end.

Definition should_retry (self : RetryHandler) (exception : Exception) : bool :=
  let error_message := lower (str exception) in
  should_retry_loop non_retryable error_message.

(** ** gateway.py *)

(** The gateway, without the three backend services it also holds. *)
Record ServiceMeshGateway := mkServiceMeshGateway {
  circuit_breaker : CircuitBreakerManager;
  retry_handler : RetryHandler
}.

(** [ServiceMeshGateway.__init__] *)
Definition ServiceMeshGateway_init : ServiceMeshGateway :=
  mkServiceMeshGateway CircuitBreakerManager_init (mkRetryHandler 3 1%Q).

Definition set_circuit_breaker (m : CircuitBreakerManager)
    (self : ServiceMeshGateway) : ServiceMeshGateway :=
  mkServiceMeshGateway m (retry_handler self).

Definition call_with_mesh (self : ServiceMeshGateway) (name : string)
    (service_func : Callable) (r : Run)
    : outcome Result * ServiceMeshGateway * Run :=
  match call_service (circuit_breaker self) name service_func r with
  | (Return result, m, r) => (Return result, set_circuit_breaker m self, r)
  | (Raise e, m, r) =>
      let self := set_circuit_breaker m self in
      if negb (contains "Circuit breaker OPEN" (str e)) then
        match retry_call (retry_handler self) name service_func r with
        | (Return result, r) => (Return result, self, r)
        | (Raise retry_error, r) => (Raise retry_error, self, r)
        end
      else (Raise e, self, r)
  end.

(** ** Reachable registries *)

(** What a call of [call_service] leaves in the registry when its operation
    ends with a [BaseException] that is no [Exception] (a cancellation, for
    one): line 53 does not catch it, nothing is counted, and the registry
    stays as lines 29-37 left it, a probed breaker being [HALF_OPEN]. *)
Definition call_service_abandoned (self : CircuitBreakerManager) (name : string)
    (r : Run) : CircuitBreakerManager :=
  let '(breaker, self) := get_breaker self name in
  match check_circuit name breaker (datetime_now (world r)) with
  | inl _ => self
  | inr breaker => store name breaker self
  end.

(** The registries obtained from an empty one by [call_service], [get_status]
    and [reset_breaker], whatever the backends and the world do. *)
Inductive reachable : CircuitBreakerManager -> Prop :=
| reachable_empty threshold timeout :
    reachable (mkCircuitBreakerManager ∅ threshold timeout)
| reachable_call_service self name service_func r :
    reachable self ->
    reachable (call_service self name service_func r).1.2
| reachable_call_abandoned self name r :
    reachable self ->
    reachable (call_service_abandoned self name r)
| reachable_get_status self :
    reachable self ->
    reachable (get_status self).2
| reachable_reset_breaker self name :
    reachable self ->
    reachable (reset_breaker self name).2.

(** What every reachable registry satisfies: an [OPEN] breaker has reached
    its threshold and carries the time of its last failure. *)
Definition breaker_ok (b : CircuitBreaker) : Prop :=
  state b = OPEN ->
  failure_threshold b <= failure_count b /\ is_Some (last_failure_time b).

Definition registry_ok (self : CircuitBreakerManager) : Prop :=
  forall name b, breakers self !! name = Some b -> breaker_ok b.

(** Calls of [call_service] for [name] made one after the other, each with
    its own operation and at its own run (anything may happen to the world
    between two calls); the registry is handed from each call to the next. *)
Fixpoint call_service_each (self : CircuitBreakerManager) (name : string)
    (calls : list (Callable * Run)) : CircuitBreakerManager :=
  match calls with
  | [] => self
  | (service_func, r) :: calls' =>
      call_service_each (call_service self name service_func r).1.2 name calls'
  end.

(** The shape of the breakers of a reachable registry. *)
Definition breaker_wf (self : CircuitBreakerManager) (name : string)
    (b : CircuitBreaker) : Prop :=
  service_name b = name /\
  failure_threshold b = self_failure_threshold self /\
  timeout_seconds b = self_timeout_seconds self /\
  0 <= failure_count b /\
  (state b <> CLOSED -> failure_threshold b <= failure_count b) /\
  (state b = CLOSED -> 0 < failure_threshold b ->
   failure_count b < failure_threshold b) /\
  (0 < failure_count b -> is_Some (last_failure_time b)).

Definition registry_wf (self : CircuitBreakerManager) : Prop :=
  forall name b, breakers self !! name = Some b -> breaker_wf self name b.

(** ** gateway.py: the route handlers *)

Record HTTPException := mkHTTPException {
  status_code : Z;
  detail : string
}.

(** [raise HTTPException(status_code=503, detail=str(e))] *)
Definition service_unavailable (e : Exception) : HTTPException :=
  mkHTTPException 503 (str e).

(** The [except] clause of [get_product], [add_to_cart] and [get_order]. *)
Definition not_found_or_unavailable (e : Exception) : HTTPException :=
  if contains "not found" (lower (str e))
  then mkHTTPException 404 (str e)
  else mkHTTPException 503 (str e).

(** The [except] clause of [remove_from_cart]. *)
Definition not_in_cart_or_unavailable (e : Exception) : HTTPException :=
  if contains "not found" (lower (str e)) || contains "not in cart" (lower (str e))
  then mkHTTPException 404 (str e)
  else mkHTTPException 503 (str e).

(** A handler that forwards one operation through the mesh and answers a
    failure with [on_error]. *)
Definition route (on_error : Exception -> HTTPException)
    (gateway : ServiceMeshGateway) (name : string) (op : Callable) (r : Run)
    : (HTTPException + Result) * ServiceMeshGateway * Run :=
  match call_with_mesh gateway name op r with
  | (Return result, gateway, r) => (inr result, gateway, r)
  | (Raise e, gateway, r) => (inl (on_error e), gateway, r)
  end.

(** [get_products] and [get_product], with the operation of the catalog
    service they forward. *)
Definition get_products (gateway : ServiceMeshGateway) (op : Callable) :=
  route service_unavailable gateway "catalog" op.

Definition get_product (gateway : ServiceMeshGateway) (op : Callable) :=
  route not_found_or_unavailable gateway "catalog" op.

(** [get_cart], [add_to_cart], [remove_from_cart] and [clear_cart]. *)
Definition get_cart (gateway : ServiceMeshGateway) (op : Callable) :=
  route service_unavailable gateway "cart" op.

Definition add_to_cart (gateway : ServiceMeshGateway) (op : Callable) :=
  route not_found_or_unavailable gateway "cart" op.

Definition remove_from_cart (gateway : ServiceMeshGateway) (op : Callable) :=
  route not_in_cart_or_unavailable gateway "cart" op.

Definition clear_cart (gateway : ServiceMeshGateway) (op : Callable) :=
  route service_unavailable gateway "cart" op.

(** [get_order] *)
Definition get_order (gateway : ServiceMeshGateway) (op : Callable) :=
  route not_found_or_unavailable gateway "order" op.

(** [reset_circuit_breaker]: the answer is the message or a 404. *)
Definition reset_circuit_breaker (gateway : ServiceMeshGateway) (name : string)
    : (HTTPException + string) * ServiceMeshGateway :=
  let '(success, m) := reset_breaker (circuit_breaker gateway) name in
  let gateway := set_circuit_breaker m gateway in
  if success
  then (inr ("Circuit breaker reset for " ++ name)%string, gateway)
  else (inl (mkHTTPException 404 "Service not found"), gateway).

Section CreateOrder.

(** The items of a cart, and [cart_result["items"]] for the result of the
    cart service's [get_cart], which always carries that key. *)
Context {Item : Type} (cart_items : Result -> list Item).

(** [create_order], with the three operations it forwards: [get_cart] and
    [clear_cart] of the cart service and [create_order] of the order
    service, the latter taking the items.  The backends raise plain
    exceptions, never an [HTTPException], so that the only [HTTPException]
    raised inside the [try] is the one for the empty cart. *)
Definition create_order (gateway : ServiceMeshGateway)
    (get_cart_op : Callable) (create_order_op : list Item -> Callable)
    (clear_cart_op : Callable) (r : Run)
    : (HTTPException + Result) * ServiceMeshGateway * Run :=
  match call_with_mesh gateway "cart" get_cart_op r with
  | (Raise e, gateway, r) => (inl (service_unavailable e), gateway, r)
  | (Return cart_result, gateway, r) =>
      match cart_items cart_result with
      | [] => (inl (mkHTTPException 400 "Cart is empty"), gateway, r)
      | _ :: _ =>
          match call_with_mesh gateway "order"
                  (create_order_op (cart_items cart_result)) r with
          | (Raise e, gateway, r) => (inl (service_unavailable e), gateway, r)
          | (Return order_result, gateway, r) =>
              match call_with_mesh gateway "cart" clear_cart_op r with
              | (Raise e, gateway, r) => (inl (service_unavailable e), gateway, r)
              | (Return _, gateway, r) => (inr order_result, gateway, r)
              end
          end
      end
  end.

End CreateOrder.

End Mesh.

(* The registry type does not mention the results of the backends. *)
Arguments reachable {RT} Result self.

(** ** A simulated world, for the examples

    The world is a clock and the number of backend invocations served so
    far.  Drawing from [random.uniform(a, b)] gives [a]; sleeping advances
    the clock; a backend invocation takes one microsecond. *)

Record SimWorld := mkSimWorld {
  clock : Z;
  served : nat
}.

#[global] Instance sim_runtime : Runtime := {|
  World := SimWorld;
  datetime_now := clock;
  random_uniform := fun a _ w => (a, w);
  asyncio_sleep := fun d w => mkSimWorld (clock w + Qfloor (d * 1000000)) (served w)
|}.

Definition sim_serve (w : SimWorld) : SimWorld :=
  mkSimWorld (clock w + 1) (S (served w)).

(** A backend that fails with [e] on its first [n] invocations and returns
    [v] afterwards. *)
Definition fails_first (n : nat) (e : Exception) (v : string)
    : Callable (Result := string) :=
  fun w => (if (served w <? n)%nat then Raise e else Return v, sim_serve w).

(** A backend that fails with [e] on every invocation. *)
Definition always_fails (e : Exception) : Callable (Result := string) :=
  fun w => (Raise e, sim_serve w).

Definition sim_start : Run (Result := string) := mkRun (mkSimWorld 0 0) [].

(** [catalog_service.py], line 45 *)
Definition database_error : Exception := mkException "Database connection failed".

(** [catalog_service.py], line 60, for product 999 *)
Definition product_error : Exception := mkException "Product 999 not found".

(** One failing call to the catalog service. *)
Definition sim_failing_call (st : CircuitBreakerManager * Run (Result := string))
    : CircuitBreakerManager * Run (Result := string) :=
  let res := call_service st.1 "catalog" (always_fails database_error) st.2 in
  (res.1.2, res.2).

(** The registry and the run after three failing calls to the catalog
    service: the breaker of the catalog is [OPEN]. *)
Definition sim_tripped : CircuitBreakerManager * Run (Result := string) :=
  sim_failing_call (sim_failing_call (sim_failing_call
    (CircuitBreakerManager_init, sim_start))).

(** A later run, more than thirty seconds after the third failure. *)
Definition sim_later : Run (Result := string) := mkRun (mkSimWorld 40000000 3) [].

(** A backend failure whose message happens to contain the words the
    gateway looks for. *)
Definition upstream_error : Exception := mkException "Circuit breaker OPEN upstream".

(** [order_service.py], line 70, for the order id [Circuit breaker OPEN]. *)
Definition order_lookup_error : Exception :=
  mkException "Order Circuit breaker OPEN not found".

(** * Properties *)

(** ** Substrings *)

Lemma prefix_append (s t : string) : String.prefix s (s ++ t)%string = true.
Proof.
  induction s as [|c s IH]; simpl.
  - by destruct t.
  - destruct (ascii_dec c c); [exact IH | congruence].
Qed.

Lemma contains_prefix (sub s : string) :
  String.prefix sub s = true -> contains sub s = true.
Proof. intros H. destruct s; cbn [contains]; rewrite H; reflexivity. Qed.

Lemma contains_append (a sub b : string) :
  contains sub (a ++ sub ++ b)%string = true.
Proof.
  induction a as [|c a IH].
  - change (contains sub (sub ++ b)%string = true).
    apply contains_prefix. exact (prefix_append sub b).
  - change (contains sub (String c (a ++ sub ++ b))%string = true).
    cbn [contains]. rewrite IH. apply orb_true_r.
Qed.

Section MeshProperties.

Context `{RT : Runtime} {Result : Type}.
Implicit Types (self : CircuitBreakerManager) (b breaker : CircuitBreaker).
Implicit Types (name : string) (service_func func : Callable (Result := Result)).
Implicit Types (r : Run (Result := Result)).

(** ** The registry *)

Lemma get_breaker_known self name b :
  breakers self !! name = Some b -> get_breaker self name = (b, self).
Proof. intros H. unfold get_breaker. by rewrite H. Qed.

Lemma store_lookup self name b : breakers (store name b self) !! name = Some b.
Proof. simpl. apply lookup_insert_eq. Qed.

Lemma store_lookup_ne self name name' b :
  name <> name' -> breakers (store name b self) !! name' = breakers self !! name'.
Proof. intros H. simpl. by apply lookup_insert_ne. Qed.

Lemma store_store self name b b' :
  store name b' (store name b self) = store name b' self.
Proof. unfold store, set_breakers; simpl. by rewrite insert_insert_eq. Qed.

(** [call_service] by cases: the refused call leaves the registry that
    [get_breaker] returned; the attempted call stores under [name] the
    breaker after the bookkeeping of its outcome. *)
Lemma call_service_unfold self name service_func r :
  let '(b0, self0) := get_breaker self name in
  call_service self name service_func r =
  match check_circuit name b0 (datetime_now (world r)) with
  | inl e => (Raise e, self0, r)
  | inr b1 =>
      let '(o, w') := service_func (world r) in
      let r' := mkRun w' (trace r ++ [Invoked o]) in
      match o with
      | Return result => (Return result, store name (on_success b1) self0, r')
      | Raise e => (Raise e, store name (on_failure b1 (datetime_now w')) self0, r')
      end
  end.
Proof.
  unfold call_service, invoke. destruct (get_breaker self name) as [b0 self0].
  destruct (check_circuit _ _ _) as [e|b1]; [reflexivity|].
  destruct (service_func (world r)) as [[v|e] w']; simpl; by rewrite store_store.
Qed.

(** ** An open breaker inside its timeout *)

Lemma call_service_refused self name service_func r b t :
  breakers self !! name = Some b ->
  state b = OPEN ->
  last_failure_time b = Some t ->
  datetime_now (world r) - t <= timedelta_seconds (timeout_seconds b) ->
  call_service self name service_func r
    = (Raise (circuit_open_exception name), self, r).
Proof.
  intros Hb Hst Ht Hnow.
  pose proof (call_service_unfold self name service_func r) as H.
  rewrite (get_breaker_known _ _ _ Hb) in H. rewrite H.
  unfold check_circuit, _should_attempt_reset. rewrite Hst, Ht.
  destruct (Z.ltb_spec (timedelta_seconds (timeout_seconds b))
              (datetime_now (world r) - t)); [lia | reflexivity].
Qed.

(** C1. When the breaker of [name] is [OPEN] and no more than its timeout
    has passed since [last_failure_time], [call_service] raises the
    circuit-open exception, whose message names the service; the backend
    operation is not invoked (the run, its world and its trace, is the one
    given) and the registry, hence the breaker's [state], [failure_count]
    and [last_failure_time], is unchanged. *)
Theorem call_service_open_fails_fast self name service_func r b t :
  breakers self !! name = Some b ->
  state b = OPEN ->
  last_failure_time b = Some t ->
  datetime_now (world r) - t <= timedelta_seconds (timeout_seconds b) ->
  call_service self name service_func r
    = (Raise (circuit_open_exception name), self, r)
  /\ contains name (str (circuit_open_exception name)) = true.
Proof.
  intros Hb Hst Ht Hnow. split.
  - by apply (call_service_refused self name service_func r b t).
  - apply contains_append.
Qed.

(** ** Manual reset *)

(** C7. [reset_breaker] on a known service returns true and leaves that
    breaker [CLOSED] with [failure_count] 0 and no [last_failure_time],
    whatever it was before, the other breakers being untouched; on an
    unknown service it returns false and the registry is unchanged, so no
    breaker is created and none is changed. *)
Theorem reset_breaker_spec self name :
  match breakers self !! name with
  | Some b =>
      exists self' b',
        reset_breaker self name = (true, self') /\
        breakers self' !! name = Some b' /\
        state b' = CLOSED /\ failure_count b' = 0 /\ last_failure_time b' = None /\
        (forall name', name' <> name -> breakers self' !! name' = breakers self !! name')
  | None => reset_breaker self name = (false, self)
  end.
Proof.
  unfold reset_breaker. destruct (breakers self !! name) as [b|] eqn:Hb; [|reflexivity].
  eexists _, _. split; [reflexivity|]. split; [apply store_lookup|].
  repeat split. intros name' Hne. by apply store_lookup_ne.
Qed.

(** ** What holds of every reachable registry *)

Lemma registry_ok_store self name b :
  registry_ok self -> breaker_ok b -> registry_ok (store name b self).
Proof.
  intros Hm Hb name' b'. destruct (decide (name = name')) as [->|Hne].
  - rewrite store_lookup. by intros [= <-].
  - rewrite store_lookup_ne by done. apply Hm.
Qed.

Lemma get_breaker_ok self name :
  registry_ok self ->
  registry_ok (get_breaker self name).2 /\ breaker_ok (get_breaker self name).1.
Proof.
  intros Hm. unfold get_breaker.
  destruct (breakers self !! name) as [b|] eqn:Hb; simpl.
  - split; [done | by apply (Hm name)].
  - split; [apply registry_ok_store; [done|] |]; by intros [=].
Qed.

Lemma check_circuit_not_open name b now b' :
  check_circuit name b now = inr b' -> state b' <> OPEN.
Proof.
  unfold check_circuit. destruct (state b) eqn:Hst.
  - intros [= <-]. by rewrite Hst.
  - destruct (_should_attempt_reset b now); by intros [= <-].
  - intros [= <-]. by rewrite Hst.
Qed.

Lemma on_success_ok b : state b <> OPEN -> breaker_ok (on_success b).
Proof. unfold on_success, breaker_ok. destruct (state b) eqn:Hst; simpl; congruence. Qed.

Lemma on_failure_ok b now : state b <> OPEN -> breaker_ok (on_failure b now).
Proof.
  intros Hst. unfold on_failure, breaker_ok. cbn [set_failure_count set_last_failure_time
    failure_threshold failure_count state last_failure_time].
  destruct (Z.leb_spec (failure_threshold b) (failure_count b + 1)); simpl.
  - intros _. split; [lia | by eexists].
  - done.
Qed.

Lemma call_service_ok self name service_func r :
  registry_ok self -> registry_ok (call_service self name service_func r).1.2.
Proof.
  intros Hm. pose proof (call_service_unfold self name service_func r) as H.
  destruct (get_breaker_ok self name Hm) as [Hm0 Hb0].
  destruct (get_breaker self name) as [b0 self0]. rewrite H. simpl in Hm0, Hb0.
  destruct (check_circuit _ _ _) as [e|b1] eqn:Hc; [done|].
  apply check_circuit_not_open in Hc.
  destruct (service_func (world r)) as [[v|e] w']; simpl;
    apply registry_ok_store; auto using on_success_ok, on_failure_ok.
Qed.

Lemma reset_breaker_ok self name :
  registry_ok self -> registry_ok (reset_breaker self name).2.
Proof.
  intros Hm. unfold reset_breaker. destruct (breakers self !! name); [|done].
  apply registry_ok_store; [done | by intros [=]].
Qed.

Lemma call_service_abandoned_ok self name r :
  registry_ok self -> registry_ok (call_service_abandoned self name r).
Proof.
  intros Hm. unfold call_service_abandoned.
  destruct (get_breaker_ok self name Hm) as [Hm0 Hb0].
  destruct (get_breaker self name) as [b0 self0]. simpl in Hm0, Hb0.
  destruct (check_circuit _ _ _) as [e|b1] eqn:Hc; [done|].
  apply check_circuit_not_open in Hc.
  apply registry_ok_store; [done|]. by intros Hst.
Qed.

Lemma reachable_ok self : reachable Result self -> registry_ok self.
Proof.
  induction 1 as [th to | self name f r _ IH | self name r _ IH
                 | self _ IH | self name _ IH].
  - intros name b. simpl. by rewrite lookup_empty.
  - by apply call_service_ok.
  - by apply call_service_abandoned_ok.
  - exact IH.
  - by apply reset_breaker_ok.
Qed.

(** C5. In every registry reachable from an empty one by [call_service],
    [get_status] and [reset_breaker], a breaker whose state is [OPEN] has
    [failure_count >= failure_threshold]. *)
Theorem reachable_open_failure_count self name b :
  reachable Result self ->
  breakers self !! name = Some b ->
  state b = OPEN ->
  failure_threshold b <= failure_count b.
Proof. intros Hr Hb Hst. by destruct (reachable_ok self Hr name b Hb Hst). Qed.

(** C10. In every registry reachable from an empty one by [call_service],
    [get_status] and [reset_breaker], a breaker whose state is [OPEN] has a
    [last_failure_time]; so [_should_attempt_reset] on it never answers
    from its first branch: it compares the time passed with the timeout. *)
Theorem reachable_open_last_failure_time self name b :
  reachable Result self ->
  breakers self !! name = Some b ->
  state b = OPEN ->
  exists t, last_failure_time b = Some t /\
    forall now, _should_attempt_reset b now
                = (timedelta_seconds (timeout_seconds b) <? now - t).
Proof.
  intros Hr Hb Hst. destruct (reachable_ok self Hr name b Hb Hst) as [_ [t Ht]].
  exists t. split; [done|]. intros now. unfold _should_attempt_reset. by rewrite Ht.
Qed.

(** ** The probe after the timeout *)

(** C3. When the breaker of [name] is [OPEN] and more than its timeout has
    passed since [last_failure_time], the check of [call_service] turns it
    [HALF_OPEN] and the backend operation is invoked exactly once; when the
    invocation succeeds the breaker ends [CLOSED] with [failure_count] 0,
    and when it fails the breaker ends [OPEN] again. *)
Theorem call_service_probe_after_timeout self name service_func r b t :
  reachable Result self ->
  breakers self !! name = Some b ->
  state b = OPEN ->
  last_failure_time b = Some t ->
  timedelta_seconds (timeout_seconds b) < datetime_now (world r) - t ->
  check_circuit name b (datetime_now (world r)) = inr (set_state HALF_OPEN b) /\
  let '(o, w') := service_func (world r) in
  exists self' b',
    call_service self name service_func r
      = (o, self', mkRun w' (trace r ++ [Invoked o])) /\
    breakers self' !! name = Some b' /\
    match o with
    | Return _ => state b' = CLOSED /\ failure_count b' = 0
    | Raise _ => state b' = OPEN
    end.
Proof.
  intros Hr Hb Hst Ht Hnow.
  assert (Hc : check_circuit name b (datetime_now (world r))
               = inr (set_state HALF_OPEN b)).
  { unfold check_circuit, _should_attempt_reset. rewrite Hst, Ht.
    destruct (Z.ltb_spec (timedelta_seconds (timeout_seconds b))
                (datetime_now (world r) - t)); [reflexivity | lia]. }
  split; [exact Hc|].
  pose proof (call_service_unfold self name service_func r) as H.
  rewrite (get_breaker_known _ _ _ Hb), Hc in H.
  destruct (reachable_ok self Hr name b Hb Hst) as [Hth _].
  destruct (service_func (world r)) as [[v|e] w']; simpl in H;
    eexists _, _; (split; [exact H|]); (split; [apply store_lookup|]).
  - by split.
  - unfold on_failure. simpl.
    destruct (Z.leb_spec (failure_threshold b) (failure_count b + 1)); [done | lia].
Qed.

(** ** A failed call *)

(** C6, as the code has it. When [call_service] attempts the backend
    operation (the breaker it finds or creates is not [OPEN], or it is due
    for a probe) and the operation fails, the breaker's [failure_count]
    grows by exactly 1, its [last_failure_time] becomes the time read after
    the failure, it ends [OPEN] exactly when the new count has reached
    [failure_threshold], and the caller gets the very exception the backend
    raised, unchanged. *)
Theorem call_service_failure_bookkeeping self name service_func r e w' :
  let b0 := (get_breaker self name).1 in
  state b0 <> OPEN \/ _should_attempt_reset b0 (datetime_now (world r)) = true ->
  service_func (world r) = (Raise e, w') ->
  exists self' b',
    call_service self name service_func r
      = (Raise e, self', mkRun w' (trace r ++ [Invoked (Raise e)])) /\
    breakers self' !! name = Some b' /\
    failure_count b' = failure_count b0 + 1 /\
    last_failure_time b' = Some (datetime_now w') /\
    (state b' = OPEN <-> failure_threshold b0 <= failure_count b0 + 1).
Proof.
  intros b0 Hgate Hf.
  pose proof (call_service_unfold self name service_func r) as H.
  subst b0. destruct (get_breaker self name) as [b0 self0]. simpl in Hgate.
  rewrite Hf in H.
  assert (exists b1, check_circuit name b0 (datetime_now (world r)) = inr b1 /\
            state b1 <> OPEN /\ failure_count b1 = failure_count b0 /\
            failure_threshold b1 = failure_threshold b0) as (b1 & Hc & Hst1 & Hfc & Hth).
  { unfold check_circuit. destruct (state b0) eqn:Hst.
    - exists b0. by rewrite Hst.
    - destruct Hgate as [? | Hreset]; [done|]. rewrite Hreset. by eexists.
    - exists b0. by rewrite Hst. }
  rewrite Hc in H. eexists _, _. split; [exact H|]. split; [apply store_lookup|].
  unfold on_failure. simpl. rewrite Hfc, Hth.
  destruct (Z.leb_spec (failure_threshold b0) (failure_count b0 + 1)); simpl.
  - repeat split; auto.
  - repeat split; [done | lia].
Qed.

(** ** Traces *)

Lemma invocations_app (tr1 tr2 : list (event (Result := Result))) :
  invocations (tr1 ++ tr2) = invocations tr1 ++ invocations tr2.
Proof.
  induction tr1 as [|[o|d] tr1 IH]; simpl; [done | by rewrite IH | done].
Qed.

Lemma sleeps_app (tr1 tr2 : list (event (Result := Result))) :
  sleeps (tr1 ++ tr2) = sleeps tr1 ++ sleeps tr2.
Proof.
  induction tr1 as [|[o|d] tr1 IH]; simpl; [done | done | by rewrite IH].
Qed.

Lemma invoke_trace func r :
  trace (invoke func r).2 = trace r ++ [Invoked (invoke func r).1].
Proof. unfold invoke. by destruct (func (world r)). Qed.

Lemma backoff_trace (h : RetryHandler) attempt r :
  trace (backoff h attempt r)
  = trace r ++ [Slept (base_delay h * inject_Z (2 ^ (attempt - 1))
                       + (uniform 0 (1 # 10) r).1)%Q].
Proof. unfold backoff, uniform, sleep. by destruct (random_uniform _ _ _). Qed.

(** ** The retry loop *)

Lemma range_length (n : Z) : length (range 1 (n + 1)) = Z.to_nat n.
Proof. unfold range. rewrite length_seqZ. f_equal. lia. Qed.

(** The loop over the attempts [a], ..., [max_attempts], none of the
    earlier ones having overflowed.  Its invocations are failures [es]
    followed by at most one success; it sleeps after every failure that is
    followed by another attempt, the sleep after attempt [n] lasting
    [base_delay * 2 ^ (n - 1)] plus the jitter drawn; and it ends in one of
    three ways: a success, which is returned; the attempts exhausted, the
    last failure being raised; or the overflow of line 38 after the failure
    of attempt 1025, when more attempts were to follow. *)
Lemma retry_loop_run (h : RetryHandler) func (k : nat) a last_exception r :
  a + Z.of_nat k = max_attempts h + 1 ->
  a <= 1025 \/ k = 0%nat ->
  exists es ds,
    sleeps (trace (retry_loop h func (seqZ a (Z.of_nat k)) last_exception r).2)
      = sleeps (trace r) ++ ds /\
    Forall (fun e => exists w, (func w).1 = Raise e) es /\
    (forall (i : nat) d, ds !! i = Some d ->
       exists w, d = (base_delay h * inject_Z (2 ^ (a + Z.of_nat i - 1))
                      + (random_uniform 0 (1 # 10) w).1)%Q) /\
    ((exists v,
        (retry_loop h func (seqZ a (Z.of_nat k)) last_exception r).1 = Return v /\
        (exists w, (func w).1 = Return v) /\
        invocations (trace (retry_loop h func (seqZ a (Z.of_nat k)) last_exception r).2)
          = invocations (trace r) ++ (Raise <$> es) ++ [Return v] /\
        length ds = length es /\
        (length es < k)%nat)
     \/
     ((retry_loop h func (seqZ a (Z.of_nat k)) last_exception r).1
        = raise_last (match last es with Some e => Some e | None => last_exception end) /\
      invocations (trace (retry_loop h func (seqZ a (Z.of_nat k)) last_exception r).2)
        = invocations (trace r) ++ (Raise <$> es) /\
      length es = k /\
      length ds = Nat.pred k /\
      (k <> 0%nat -> max_attempts h <= 1025))
     \/
     ((retry_loop h func (seqZ a (Z.of_nat k)) last_exception r).1 = Raise overflow_error /\
      invocations (trace (retry_loop h func (seqZ a (Z.of_nat k)) last_exception r).2)
        = invocations (trace r) ++ (Raise <$> es) /\
      length es = S (length ds) /\
      a + Z.of_nat (length es) = 1026 /\
      (length es < k)%nat)).
Proof.
  revert a last_exception r.
  induction k as [|k IH]; intros a last_exception r Ha Hb.
  - exists [], []. simpl. rewrite !app_nil_r.
    split; [done|]. split; [done|]. split; [by intros [|i] d|].
    right; left. repeat split; done.
  - rewrite seqZ_cons by lia.
    replace (Z.pred (Z.of_nat (S k))) with (Z.of_nat k) by lia.
    cbn [retry_loop]. unfold invoke.
    destruct (func (world r)) as [[v|e] w1] eqn:Hf.
    + exists [], []. cbn [fst snd trace]. rewrite invocations_app, sleeps_app. simpl.
      rewrite app_nil_r.
      split; [done|]. split; [done|]. split; [by intros [|i] d|].
      left. exists v. split; [done|]. split; [exists (world r); by rewrite Hf|].
      split; [done|]. split; [done|]. lia.
    + set (r1 := mkRun w1 (trace r ++ [Invoked (Raise e)])).
      assert (He : exists w, (func w).1 = Raise e) by (exists (world r); by rewrite Hf).
      destruct (Z.ltb_spec a (max_attempts h)) as [Hlt|Hge].
      * unfold delay_overflows.
        destruct (Z.leb_spec 1024 (a - 1)) as [Hov|Hno].
        -- (* attempt 1025 with more attempts to follow *)
           exists [e], []. cbn [fst snd]. subst r1. cbn [trace].
           rewrite invocations_app, sleeps_app. simpl. rewrite app_nil_r.
           split; [done|]. split; [by constructor|]. split; [by intros [|i] d|].
           right; right. repeat split; try done; lia.
        -- destruct (IH (Z.succ a) (Some e) (backoff h a r1))
             as (es & ds & Hs & Hall & Hd & Hend); [lia | lia |].
           exists (e :: es),
             ((base_delay h * inject_Z (2 ^ (a - 1)) + (uniform 0 (1 # 10) r1).1)%Q :: ds).
           assert (Hinv1 : invocations (trace (backoff h a r1))
                           = invocations (trace r) ++ [Raise e]).
           { rewrite backoff_trace, invocations_app. subst r1. cbn [trace].
             rewrite invocations_app. simpl. by rewrite app_nil_r. }
           assert (Hs1 : sleeps (trace (backoff h a r1))
                         = sleeps (trace r)
                           ++ [(base_delay h * inject_Z (2 ^ (a - 1))
                                + (uniform 0 (1 # 10) r1).1)%Q]).
           { rewrite backoff_trace, sleeps_app. subst r1. cbn [trace].
             rewrite sleeps_app. simpl. by rewrite app_nil_r. }
           split; [by rewrite Hs, Hs1, <- app_assoc|].
           split; [by constructor|]. split.
           { intros [|i] d Hl; simpl in Hl.
             - injection Hl as <-. exists (world r1). unfold uniform.
               destruct (random_uniform 0 (1 # 10) (world r1)). cbn [fst].
               by replace (a + Z.of_nat 0 - 1) with (a - 1) by lia.
             - destruct (Hd i d Hl) as [w ->]. exists w.
               by replace (Z.succ a + Z.of_nat i - 1)
                 with (a + Z.of_nat (S i) - 1) by lia. }
           destruct Hend as [(v & Hres & Hw & Hinv & Hl1 & Hl2)
                            | [(Hres & Hinv & Hl1 & Hl2 & Hmax)
                              | (Hres & Hinv & Hl1 & Hl2 & Hl3)]].
           ++ left. exists v. split; [done|]. split; [done|].
              split; [by rewrite Hinv, Hinv1, <- app_assoc|].
              split; [simpl; by rewrite Hl1 | simpl; lia].
           ++ right; left. split; [rewrite Hres, last_cons; by destruct (last es)|].
              split; [by rewrite Hinv, Hinv1, <- app_assoc|].
              split; [simpl; by rewrite Hl1|]. split; [simpl; lia | lia].
           ++ right; right. split; [done|].
              split; [by rewrite Hinv, Hinv1, <- app_assoc|].
              split; [simpl; by rewrite Hl1|]. split; [simpl; lia | simpl; lia].
      * assert (k = 0%nat) as -> by lia. simpl.
        exists [e], []. subst r1. cbn [trace].
        rewrite invocations_app, sleeps_app. simpl. rewrite app_nil_r.
        split; [done|]. split; [by constructor|]. split; [by intros [|i] d|].
        right; left. repeat split; try done. intros _. lia.
Qed.

(** The same for [retry_call], whatever [max_attempts] is. *)
Lemma retry_call_run (h : RetryHandler) name func r :
  exists es ds,
    sleeps (trace (retry_call h name func r).2) = sleeps (trace r) ++ ds /\
    Forall (fun e => exists w, (func w).1 = Raise e) es /\
    (forall (i : nat) d, ds !! i = Some d ->
       exists w, d = (base_delay h * inject_Z (2 ^ Z.of_nat i)
                      + (random_uniform 0 (1 # 10) w).1)%Q) /\
    ((exists v,
        (retry_call h name func r).1 = Return v /\
        (exists w, (func w).1 = Return v) /\
        invocations (trace (retry_call h name func r).2)
          = invocations (trace r) ++ (Raise <$> es) ++ [Return v] /\
        length ds = length es /\
        (length es < Z.to_nat (max_attempts h))%nat)
     \/
     ((retry_call h name func r).1 = raise_last (last es) /\
      invocations (trace (retry_call h name func r).2)
        = invocations (trace r) ++ (Raise <$> es) /\
      length es = Z.to_nat (max_attempts h) /\
      length ds = Nat.pred (Z.to_nat (max_attempts h)) /\
      max_attempts h <= 1025)
     \/
     ((retry_call h name func r).1 = Raise overflow_error /\
      invocations (trace (retry_call h name func r).2)
        = invocations (trace r) ++ (Raise <$> es) /\
      length es = 1025%nat /\
      length ds = 1024%nat /\
      1025 < max_attempts h)).
Proof.
  unfold retry_call, range.
  destruct (Z.le_gt_cases (max_attempts h) 0) as [Hn|Hn].
  - rewrite seqZ_nil by lia. exists [], []. simpl. rewrite !app_nil_r.
    split; [done|]. split; [done|]. split; [by intros [|i] d|].
    right; left. repeat split; try done; lia.
  - destruct (retry_loop_run h func (Z.to_nat (max_attempts h)) 1 None r)
      as (es & ds & Hs & Hall & Hd & Hend); [lia | lia |].
    replace (max_attempts h + 1 - 1) with (Z.of_nat (Z.to_nat (max_attempts h))) by lia.
    exists es, ds. split; [done|]. split; [done|]. split.
    { intros i d Hl. destruct (Hd i d Hl) as [w ->]. exists w.
      by replace (1 + Z.of_nat i - 1) with (Z.of_nat i) by lia. }
    destruct Hend as [(v & Hres & Hw & Hinv & Hl1 & Hl2)
                     | [(Hres & Hinv & Hl1 & Hl2 & Hmax)
                       | (Hres & Hinv & Hl1 & Hl2 & Hl3)]].
    + left. exists v. done.
    + right; left. split; [rewrite Hres; by destruct (last es)|].
      split; [done|]. split; [done|]. split; [done|]. apply Hmax. lia.
    + right; right. split; [done|]. split; [done|]. repeat split; lia.
Qed.

(** Within the range where line 38 does not overflow: against a backend
    operation that fails on every invocation, and with
    [1 <= max_attempts = N <= 1025], [retry_call] invokes the operation
    exactly [N] times and raises the failure of the [N]th invocation. *)
Lemma retry_call_always_failing (h : RetryHandler) name func r :
  (forall w, exists e, (func w).1 = Raise e) ->
  1 <= max_attempts h <= 1025 ->
  exists es e,
    invocations (trace (retry_call h name func r).2)
      = invocations (trace r) ++ (Raise <$> es) /\
    length es = Z.to_nat (max_attempts h) /\
    es !! (Z.to_nat (max_attempts h) - 1)%nat = Some e /\
    (retry_call h name func r).1 = Raise e.
Proof.
  intros Hf Hn.
  destruct (retry_call_run h name func r) as (es & ds & _ & _ & _ & Hend).
  destruct Hend as [(v & _ & [w Hw] & _) | [(Hres & Hinv & Hlen & _) | (_ & _ & _ & _ & Hov)]].
  - destruct (Hf w) as [e He]. congruence.
  - destruct (last es) as [e|] eqn:Hlast.
    + exists es, e. rewrite last_lookup, Hlen in Hlast.
      repeat split; try done. by replace (Z.to_nat (max_attempts h) - 1)%nat
        with (Nat.pred (Z.to_nat (max_attempts h))) by lia.
    + apply last_None in Hlast. subst es. simpl in Hlen. lia.
  - lia.
Qed.

(** Past that range: against a backend operation that fails on every
    invocation, and with [max_attempts >= 1026], [retry_call] raises the
    [OverflowError] of line 38 after the 1025th invocation; the attempts
    left are not made and the failure of the backend is not the one
    raised. *)
Lemma retry_call_overflow (h : RetryHandler) name func r :
  (forall w, exists e, (func w).1 = Raise e) ->
  1026 <= max_attempts h ->
  exists es,
    invocations (trace (retry_call h name func r).2)
      = invocations (trace r) ++ (Raise <$> es) /\
    length es = 1025%nat /\
    (retry_call h name func r).1 = Raise overflow_error.
Proof.
  intros Hf Hn.
  destruct (retry_call_run h name func r) as (es & ds & _ & _ & _ & Hend).
  destruct Hend as [(v & _ & [w Hw] & _) | [(_ & _ & _ & _ & Hmax) | (Hres & Hinv & Hlen & _)]].
  - destruct (Hf w) as [e He]. congruence.
  - lia.
  - by exists es.
Qed.

Lemma invoke_eq_trace func r o r' :
  invoke func r = (o, r') -> trace r' = trace r ++ [Invoked o].
Proof. intros H. pose proof (invoke_trace func r) as Htr. by rewrite H in Htr. Qed.

(** C9. With [max_attempts = 3] and a backend operation that fails on its
    first two invocations and succeeds on the third, [retry_call] makes
    exactly these three invocations and returns the third one's result; it
    sleeps twice, [base_delay * 1] and [base_delay * 2] plus the jitter drawn
    each time, so at least [base_delay + 2 * base_delay] when no jitter is
    negative.  In general, for every handler and every run, the invocations
    of [retry_call] are failures followed by at most one success, which is
    the last invocation and whose result is returned; without a success
    the attempts are exhausted or, after attempt 1025, the delay of line 38
    overflows. *)
Theorem retry_call_third_attempt_succeeds name func base r r1 r2 r3 e1 e2 v :
  let h := mkRetryHandler 3 base in
  invoke func r = (Raise e1, r1) ->
  invoke func (backoff h 1 r1) = (Raise e2, r2) ->
  invoke func (backoff h 2 r2) = (Return v, r3) ->
  let j1 := (uniform 0 (1 # 10) r1).1 in
  let j2 := (uniform 0 (1 # 10) r2).1 in
  let slept := [(base * inject_Z 1 + j1)%Q; (base * inject_Z 2 + j2)%Q] in
  retry_call h name func r = (Return v, r3) /\
  invocations (trace r3) = invocations (trace r) ++ [Raise e1; Raise e2; Return v] /\
  sleeps (trace r3) = sleeps (trace r) ++ slept /\
  ((0 <= j1)%Q -> (0 <= j2)%Q -> (base + 2 * base <= total slept)%Q) /\
  forall (h' : RetryHandler) r0,
    exists es,
      (exists v',
         (retry_call h' name func r0).1 = Return v' /\
         invocations (trace (retry_call h' name func r0).2)
           = invocations (trace r0) ++ (Raise <$> es) ++ [Return v'] /\
         (length es < Z.to_nat (max_attempts h'))%nat)
      \/
      ((retry_call h' name func r0).1 = raise_last (last es) /\
       invocations (trace (retry_call h' name func r0).2)
         = invocations (trace r0) ++ (Raise <$> es) /\
       length es = Z.to_nat (max_attempts h'))
      \/
      ((retry_call h' name func r0).1 = Raise overflow_error /\
       invocations (trace (retry_call h' name func r0).2)
         = invocations (trace r0) ++ (Raise <$> es) /\
       length es = 1025%nat /\
       1025 < max_attempts h').
Proof.
  intros h H1 H2 H3 j1 j2 slept.
  pose proof (invoke_eq_trace _ _ _ _ H1) as T1.
  pose proof (invoke_eq_trace _ _ _ _ H2) as T2.
  pose proof (invoke_eq_trace _ _ _ _ H3) as T3.
  rewrite backoff_trace in T2, T3. fold j1 in T2. fold j2 in T3.
  split; [|split; [|split; [|split]]].
  - unfold retry_call. change (range 1 (max_attempts h + 1)) with [1; 2; 3].
    cbn [retry_loop]. rewrite H1. change (1 <? max_attempts h) with true.
    change (delay_overflows 1) with false. cbv iota.
    rewrite H2. change (2 <? max_attempts h) with true.
    change (delay_overflows 2) with false. cbv iota.
    by rewrite H3.
  - rewrite T3, T2, T1. rewrite !invocations_app. simpl.
    rewrite !app_nil_r, <- !app_assoc. done.
  - rewrite T3, T2, T1. rewrite !sleeps_app. simpl.
    rewrite !app_nil_r, <- !app_assoc. done.
  - intros Hj1 Hj2. unfold slept, total. simpl foldr.
    change (inject_Z 1) with 1%Q. change (inject_Z 2) with 2%Q. lra.
  - intros h' r0.
    destruct (retry_call_run h' name func r0) as (es & ds & _ & _ & _ & Hend).
    exists es.
    destruct Hend as [(v' & Hres & _ & Hinv & _ & Hlen)
                     | [(Hres & Hinv & Hlen & _) | (Hres & Hinv & Hlen & _ & Hmax)]].
    + left. by exists v'.
    + right; left. done.
    + right; right. done.
Qed.

(** ** The gateway *)

(** What [call_with_mesh] does.  It first makes the breaker-gated
    attempt of [call_service].  A failure whose message contains
    ["Circuit breaker OPEN"], as the message of every circuit-open exception
    does, is propagated at once and nothing more is invoked.  A failure
    whose message does not contain it is escalated to [retry_call], whose
    result or final failure is returned.  In every case the registry after
    [call_with_mesh] is the one [call_service] left: the retry attempts
    change no breaker.  In particular, when the breaker is [OPEN] inside its
    timeout, [call_with_mesh] raises the circuit-open exception and leaves
    the gateway and the run as they were. *)
Theorem call_with_mesh_spec (gateway : ServiceMeshGateway) name service_func r :
  (let '(first, m1, r1) :=
     call_service (circuit_breaker gateway) name service_func r in
   let '(res, gateway', r') := call_with_mesh gateway name service_func r in
   circuit_breaker gateway' = m1 /\
   retry_handler gateway' = retry_handler gateway /\
   contains "Circuit breaker OPEN" (str (circuit_open_exception name)) = true /\
   match first with
   | Return v => res = Return v /\ r' = r1
   | Raise e =>
       (contains "Circuit breaker OPEN" (str e) = true ->
        res = Raise e /\ r' = r1) /\
       (contains "Circuit breaker OPEN" (str e) = false ->
        (res, r') = retry_call (retry_handler gateway) name service_func r1)
   end) /\
  (forall b t,
     breakers (circuit_breaker gateway) !! name = Some b ->
     state b = OPEN ->
     last_failure_time b = Some t ->
     datetime_now (world r) - t <= timedelta_seconds (timeout_seconds b) ->
     call_with_mesh gateway name service_func r
       = (Raise (circuit_open_exception name), gateway, r)).
Proof.
  split.
  - unfold call_with_mesh.
    destruct (call_service (circuit_breaker gateway) name service_func r)
      as [[[v|e] m1] r1].
    + repeat split.
    + assert (Hopen : contains "Circuit breaker OPEN"
                        (str (circuit_open_exception name)) = true)
        by (apply contains_prefix; reflexivity).
      destruct (contains "Circuit breaker OPEN" (str e)) eqn:Hc; simpl.
      * repeat split; done.
      * destruct (retry_call _ _ _ _) as [[v'|e'] r2]; repeat split; done.
  - intros b t Hb Hst Ht Hnow. unfold call_with_mesh.
    rewrite (call_service_refused _ name service_func r b t Hb Hst Ht Hnow).
    assert (Hopen : contains "Circuit breaker OPEN"
                      (str (circuit_open_exception name)) = true)
      by (apply contains_prefix; reflexivity).
    rewrite Hopen. simpl. by destruct gateway.
Qed.

End MeshProperties.

(** * Further properties of the mesh *)

Section RegistryProperties.

Context `{RT : Runtime} {Result : Type}.
Implicit Types (self : CircuitBreakerManager) (b breaker : CircuitBreaker).
Implicit Types (name : string) (service_func func : Callable (Result := Result)).
Implicit Types (r : Run (Result := Result)).

(** ** [get_breaker] *)

(** X1. [get_breaker] returns the breaker that the registry holds under
    [name] afterwards: the one that was there or, for a new name, a
    [CLOSED] breaker without failures carrying the manager's threshold and
    timeout.  The breakers of the other names are untouched, and asking
    again gives the same breaker and changes nothing. *)
Theorem get_breaker_spec self name :
  let '(b, self') := get_breaker self name in
  breakers self' !! name = Some b /\
  (forall b0, breakers self !! name = Some b0 -> b = b0 /\ self' = self) /\
  (breakers self !! name = None ->
   b = mkCircuitBreaker name CLOSED 0 None
         (self_failure_threshold self) (self_timeout_seconds self)) /\
  (forall name', name' <> name -> breakers self' !! name' = breakers self !! name') /\
  get_breaker self' name = (b, self').
Proof.
  unfold get_breaker. destruct (breakers self !! name) as [b0|] eqn:Hb.
  - rewrite Hb. split; [done|]. split; [by intros ? [= ->]|].
    split; [done|]. by split.
  - rewrite store_lookup. split; [done|]. split; [done|]. split; [done|].
    split; [|done]. intros name' Hne. by apply store_lookup_ne.
Qed.

(** ** What [call_service] leaves alone *)

Lemma get_breaker_config self name :
  self_failure_threshold (get_breaker self name).2 = self_failure_threshold self /\
  self_timeout_seconds (get_breaker self name).2 = self_timeout_seconds self.
Proof. unfold get_breaker. by destruct (breakers self !! name). Qed.

Lemma get_breaker_lookup_ne self name name' :
  name' <> name ->
  breakers (get_breaker self name).2 !! name' = breakers self !! name'.
Proof.
  intros Hne. unfold get_breaker. destruct (breakers self !! name); [done|].
  by apply store_lookup_ne.
Qed.

Lemma get_breaker_lookup self name :
  breakers (get_breaker self name).2 !! name = Some (get_breaker self name).1.
Proof.
  unfold get_breaker. destruct (breakers self !! name) eqn:Hb; [done|].
  apply store_lookup.
Qed.

(** X2. [call_service] for [name] touches no other breaker and not the
    manager's configuration; afterwards the registry holds a breaker for
    [name], and every name it held before is still there. *)
Theorem call_service_frame self name service_func r :
  let self' := (call_service self name service_func r).1.2 in
  (forall name', name' <> name -> breakers self' !! name' = breakers self !! name') /\
  self_failure_threshold self' = self_failure_threshold self /\
  self_timeout_seconds self' = self_timeout_seconds self /\
  is_Some (breakers self' !! name) /\
  (forall name', is_Some (breakers self !! name') -> is_Some (breakers self' !! name')).
Proof.
  pose proof (call_service_unfold self name service_func r) as H.
  pose proof (get_breaker_config self name) as [Hth Hto].
  pose proof (get_breaker_lookup self name) as Hl.
  pose proof (get_breaker_lookup_ne self name) as Hne.
  destruct (get_breaker self name) as [b0 self0]. simpl in *.
  assert (Hframe : forall name', name' <> name ->
            breakers (call_service self name service_func r).1.2 !! name'
            = breakers self !! name').
  { intros name' Hn. rewrite H.
    destruct (check_circuit _ _ _) as [e|b1]; [by apply Hne|].
    destruct (service_func (world r)) as [[v|e] w']; cbn [fst snd];
      rewrite store_lookup_ne by done; by apply Hne. }
  assert (Hin : is_Some (breakers (call_service self name service_func r).1.2 !! name)).
  { rewrite H. destruct (check_circuit _ _ _) as [e|b1]; [by eexists|].
    destruct (service_func (world r)) as [[v|e] w']; cbn [fst snd];
      rewrite store_lookup; by eexists. }
  split; [exact Hframe|]. split; [|split; [|split; [exact Hin|]]].
  - rewrite H. destruct (check_circuit _ _ _) as [e|b1]; [done|].
    by destruct (service_func (world r)) as [[v|e] w'].
  - rewrite H. destruct (check_circuit _ _ _) as [e|b1]; [done|].
    by destruct (service_func (world r)) as [[v|e] w'].
  - intros name' Hsome. destruct (decide (name' = name)) as [->|Hn]; [done|].
    by rewrite Hframe.
Qed.

(** ** A successful call *)

(** X3. When [call_service] attempts the backend operation and the
    operation returns, the result is handed to the caller and the breaker is
    left [CLOSED] with [failure_count] 0; its [last_failure_time] is the one
    it had before the call, also after a successful probe. *)
Theorem call_service_success_bookkeeping self name service_func r v w' :
  let b0 := (get_breaker self name).1 in
  state b0 <> OPEN \/ _should_attempt_reset b0 (datetime_now (world r)) = true ->
  service_func (world r) = (Return v, w') ->
  exists self' b',
    call_service self name service_func r
      = (Return v, self', mkRun w' (trace r ++ [Invoked (Return v)])) /\
    breakers self' !! name = Some b' /\
    state b' = CLOSED /\
    failure_count b' = 0 /\
    last_failure_time b' = last_failure_time b0 /\
    failure_threshold b' = failure_threshold b0 /\
    timeout_seconds b' = timeout_seconds b0.
Proof.
  intros b0 Hgate Hf.
  pose proof (call_service_unfold self name service_func r) as H.
  subst b0. destruct (get_breaker self name) as [b0 self0]. simpl in Hgate.
  rewrite Hf in H.
  assert (exists b1, check_circuit name b0 (datetime_now (world r)) = inr b1 /\
            state b1 <> OPEN /\ last_failure_time b1 = last_failure_time b0 /\
            failure_threshold b1 = failure_threshold b0 /\
            timeout_seconds b1 = timeout_seconds b0) as (b1 & Hc & Hst1 & Hl & Hth & Hto).
  { unfold check_circuit. destruct (state b0) eqn:Hst.
    - exists b0. by rewrite Hst.
    - destruct Hgate as [? | Hreset]; [done|]. rewrite Hreset. by eexists.
    - exists b0. by rewrite Hst. }
  rewrite Hc in H. eexists _, _. split; [exact H|]. split; [apply store_lookup|].
  unfold on_success. destruct (state b1) eqn:Hs1; simpl; by rewrite ?Hs1.
Qed.

(** ** The shape of reachable registries *)

Lemma breaker_wf_config self self' name b :
  self_failure_threshold self' = self_failure_threshold self ->
  self_timeout_seconds self' = self_timeout_seconds self ->
  breaker_wf self name b -> breaker_wf self' name b.
Proof. unfold breaker_wf. intros -> ->. done. Qed.

Lemma registry_wf_store self name b :
  registry_wf self -> breaker_wf self name b -> registry_wf (store name b self).
Proof.
  intros Hm Hb name' b'. destruct (decide (name = name')) as [->|Hne].
  - rewrite store_lookup. intros [= <-]. by apply (breaker_wf_config self).
  - rewrite store_lookup_ne by done. intros Hl.
    by apply (breaker_wf_config self), Hm.
Qed.

Lemma get_breaker_wf self name :
  registry_wf self ->
  registry_wf (get_breaker self name).2 /\
  breaker_wf (get_breaker self name).2 name (get_breaker self name).1.
Proof.
  intros Hm. unfold get_breaker.
  destruct (breakers self !! name) as [b|] eqn:Hb; cbn [fst snd].
  - split; [done | by apply Hm].
  - assert (breaker_wf self name
              (mkCircuitBreaker name CLOSED 0 None
                 (self_failure_threshold self) (self_timeout_seconds self))) as Hnew.
    { unfold breaker_wf; simpl. repeat split; try done; intros; lia. }
    split; [by apply registry_wf_store | by apply (breaker_wf_config self)].
Qed.

Lemma check_circuit_wf self name b now b1 :
  check_circuit name b now = inr b1 ->
  breaker_wf self name b ->
  breaker_wf self name b1 /\ state b1 <> OPEN.
Proof.
  intros Hc Hwf. split; [|by apply (check_circuit_not_open name b now)].
  revert Hc. unfold check_circuit. destruct (state b) eqn:Hst.
  - by intros [= <-].
  - destruct (_should_attempt_reset b now); [|done]. intros [= <-].
    destruct Hwf as (Hn & Hth & Hto & Hfc & Hop & Hcl & Hl).
    unfold breaker_wf; simpl. repeat split; try done. intros _. apply Hop. by rewrite Hst.
  - by intros [= <-].
Qed.

Lemma on_success_wf self name b :
  breaker_wf self name b -> state b <> OPEN -> breaker_wf self name (on_success b).
Proof.
  unfold breaker_wf, on_success. intros (Hn & Hth & Hto & Hfc & Hop & Hcl & Hl) Hst.
  destruct (state b) eqn:Hs; [| done |]; simpl; rewrite ?Hs;
    repeat split; try done; intros; lia.
Qed.

Lemma on_failure_wf self name b now :
  breaker_wf self name b -> state b <> OPEN -> breaker_wf self name (on_failure b now).
Proof.
  unfold breaker_wf, on_failure. intros (Hn & Hth & Hto & Hfc & Hop & Hcl & Hl) Hst.
  simpl.
  destruct (Z.leb_spec (failure_threshold b) (failure_count b + 1)); simpl.
  - repeat split; try done; try (intros; lia); intros _; by eexists.
  - repeat split; try done; try (intros; lia);
      first [ intros Hs; specialize (Hop Hs); lia | intros _; by eexists ].
Qed.

Lemma call_service_wf self name service_func r :
  registry_wf self -> registry_wf (call_service self name service_func r).1.2.
Proof.
  intros Hm. pose proof (call_service_unfold self name service_func r) as H.
  destruct (get_breaker_wf self name Hm) as [Hm0 Hb0].
  destruct (get_breaker self name) as [b0 self0]. rewrite H. cbn [fst snd] in Hm0, Hb0.
  destruct (check_circuit _ _ _) as [e|b1] eqn:Hc; [done|].
  destruct (check_circuit_wf self0 name b0 _ b1 Hc Hb0) as [Hb1 Hst1].
  destruct (service_func (world r)) as [[v|e] w']; cbn [fst snd];
    apply registry_wf_store; auto using on_success_wf, on_failure_wf.
Qed.

Lemma call_service_abandoned_wf self name r :
  registry_wf self -> registry_wf (call_service_abandoned self name r).
Proof.
  intros Hm. unfold call_service_abandoned.
  destruct (get_breaker_wf self name Hm) as [Hm0 Hb0].
  destruct (get_breaker self name) as [b0 self0]. cbn [fst snd] in Hm0, Hb0.
  destruct (check_circuit _ _ _) as [e|b1] eqn:Hc; [done|].
  destruct (check_circuit_wf self0 name b0 _ b1 Hc Hb0) as [Hb1 _].
  by apply registry_wf_store.
Qed.

Lemma reset_breaker_wf self name :
  registry_wf self -> registry_wf (reset_breaker self name).2.
Proof.
  intros Hm. unfold reset_breaker. destruct (breakers self !! name) as [b|] eqn:Hb; [|done].
  apply registry_wf_store; [done|].
  destruct (Hm name b Hb) as (Hn & Hth & Hto & _).
  unfold breaker_wf; simpl. repeat split; try done; intros; lia.
Qed.

Lemma reachable_wf self : reachable Result self -> registry_wf self.
Proof.
  induction 1 as [th to | self name f r _ IH | self name r _ IH
                 | self _ IH | self name _ IH].
  - intros name b. simpl. by rewrite lookup_empty.
  - by apply call_service_wf.
  - by apply call_service_abandoned_wf.
  - exact IH.
  - by apply reset_breaker_wf.
Qed.

(** X4. In every registry reachable from an empty one, the breaker stored
    under a name carries that name, and its threshold and timeout are the
    manager's. *)
Theorem reachable_breaker_identity self name b :
  reachable Result self ->
  breakers self !! name = Some b ->
  service_name b = name /\
  failure_threshold b = self_failure_threshold self /\
  timeout_seconds b = self_timeout_seconds self.
Proof.
  intros Hr Hb. by destruct (reachable_wf self Hr name b Hb) as (? & ? & ? & _).
Qed.

(** X5. In every registry reachable from an empty one, also through calls
    whose operation was cancelled, [failure_count] is not negative, a
    breaker that has counted a failure has a [last_failure_time], and a
    breaker that is not [CLOSED] ([OPEN], or [HALF_OPEN] after an abandoned
    probe) has reached its threshold; when the threshold is positive, a
    breaker is [CLOSED] exactly when its [failure_count] is below it. *)
Theorem reachable_breaker_count self name b :
  reachable Result self ->
  breakers self !! name = Some b ->
  0 <= failure_count b /\
  (0 < failure_count b -> is_Some (last_failure_time b)) /\
  (state b <> CLOSED -> failure_threshold b <= failure_count b) /\
  (0 < failure_threshold b ->
   (state b = CLOSED <-> failure_count b < failure_threshold b)).
Proof.
  intros Hr Hb.
  destruct (reachable_wf self Hr name b Hb) as (_ & _ & _ & Hfc & Hop & Hcl & Hl).
  split; [done|]. split; [done|]. split; [done|]. intros Hpos. split.
  - intros Hst. by apply Hcl.
  - intros Hlt. destruct (state b) eqn:Hst; [done | |];
      (assert (failure_threshold b <= failure_count b) by (by apply Hop); lia).
Qed.

(** ** Consecutive failures *)

Lemma call_service_closed_failure self name service_func r e :
  let b0 := (get_breaker self name).1 in
  state b0 = CLOSED ->
  (service_func (world r)).1 = Raise e ->
  exists self' b',
    (call_service self name service_func r).1.2 = self' /\
    get_breaker self' name = (b', self') /\
    failure_count b' = failure_count b0 + 1 /\
    failure_threshold b' = failure_threshold b0 /\
    state b' = (if failure_threshold b0 <=? failure_count b0 + 1 then OPEN else CLOSED) /\
    is_Some (last_failure_time b').
Proof.
  intros b0 Hst Hf.
  pose proof (call_service_unfold self name service_func r) as H.
  subst b0. destruct (get_breaker self name) as [b0 self0]. cbn [fst] in *.
  unfold check_circuit in H. rewrite Hst in H.
  destruct (service_func (world r)) as [o w']. cbn [fst] in Hf. subst o.
  eexists _, _. split; [by rewrite H|]. split.
  - apply get_breaker_known, store_lookup.
  - unfold on_failure. simpl.
    destruct (Z.leb_spec (failure_threshold b0) (failure_count b0 + 1)); simpl;
      rewrite ?Hst; repeat split; by eexists.
Qed.

(** X6. Failing calls for a service whose breaker is [CLOSED] and below
    its threshold are all let through as long as the count stays below the
    threshold: after [k] of them, whatever happens to the world in between,
    the count has grown by [k], and the breaker is [OPEN] if the count has
    reached the threshold and [CLOSED] otherwise.  So a new service is
    tripped by exactly [failure_threshold] failures in a row. *)
Theorem call_service_each_failing self name
    (calls : list (Callable (Result := Result) * Run (Result := Result))) :
  let b0 := (get_breaker self name).1 in
  let b' := (get_breaker (call_service_each self name calls) name).1 in
  Forall (fun c => exists e, (c.1 (world c.2)).1 = Raise e) calls ->
  state b0 = CLOSED ->
  failure_count b0 < failure_threshold b0 ->
  failure_count b0 + Z.of_nat (length calls) <= failure_threshold b0 ->
  failure_count b' = failure_count b0 + Z.of_nat (length calls) /\
  failure_threshold b' = failure_threshold b0 /\
  state b' = (if failure_threshold b' <=? failure_count b' then OPEN else CLOSED) /\
  (calls <> [] -> is_Some (last_failure_time b')).
Proof.
  intros b0 b' Hall. subst b0 b'. revert self.
  induction Hall as [|[f r] calls [e He] _ IH]; intros self Hst Hlt Hle.
  - cbn [call_service_each length]. rewrite Z.add_0_r.
    destruct (Z.leb_spec (failure_threshold (get_breaker self name).1)
                (failure_count (get_breaker self name).1)); [lia | done].
  - cbn [call_service_each]. cbn [fst snd] in He.
    destruct (call_service_closed_failure self name f r e Hst He)
      as (self1 & b1 & -> & Hg1 & Hfc1 & Hth1 & Hst1 & Hl1).
    rewrite length_cons, Nat2Z.inj_succ in *.
    destruct calls as [|c calls].
    + cbn [call_service_each length]. rewrite Hg1. cbn [fst].
      rewrite Hfc1, Hth1, Hst1. repeat split; try done; lia.
    + rewrite length_cons, Nat2Z.inj_succ in Hle.
      destruct (Z.leb_spec (failure_threshold (get_breaker self name).1)
                  (failure_count (get_breaker self name).1 + 1)); [lia|].
      specialize (IH self1). rewrite Hg1 in IH. cbn [fst] in IH.
      rewrite Hfc1, Hth1 in IH.
      destruct IH as (IH1 & IH2 & IH3 & IH4); [done | lia | |].
      { rewrite length_cons, Nat2Z.inj_succ. lia. }
      split; [lia|]. split; [done|]. split; [done|]. intros _. by apply IH4.
Qed.

(** ** Reset and status *)

Lemma call_service_after_reset self name service_func r :
  is_Some (breakers self !! name) ->
  exists self',
    call_service (reset_breaker self name).2 name service_func r
    = ((service_func (world r)).1, self',
       mkRun (service_func (world r)).2
         (trace r ++ [Invoked (service_func (world r)).1])).
Proof.
  intros [b Hb].
  pose proof (call_service_unfold (reset_breaker self name).2 name service_func r) as H.
  unfold reset_breaker in *. rewrite Hb in *. cbn [snd] in *.
  rewrite (get_breaker_known _ name _ (store_lookup _ _ _)) in H.
  rewrite H. unfold check_circuit. simpl.
  destruct (service_func (world r)) as [[v|e] w']; by eexists.
Qed.

(** X7. After [reset_breaker] on a known service, the next [call_service]
    for it is never refused, whatever the breaker was and whatever the time:
    the backend operation is invoked once and its outcome is the caller's. *)
Theorem reset_breaker_then_call self name service_func r :
  is_Some (breakers self !! name) ->
  exists self',
    call_service (reset_breaker self name).2 name service_func r
    = ((service_func (world r)).1, self',
       mkRun (service_func (world r)).2
         (trace r ++ [Invoked (service_func (world r)).1])).
Proof. apply call_service_after_reset. Qed.

(** X8. [get_status] changes nothing and lists a service exactly when the
    registry has a breaker for it.  After [reset_breaker] on a listed
    service its entry reads [CLOSED], 0 failures and no last failure, the
    other entries being as before; on a service that is not listed
    [reset_breaker] answers false and the status stays the same. *)
Theorem get_status_after_reset self name :
  let status := (get_status self).1 in
  let status' := (get_status (reset_breaker self name).2).1 in
  (get_status self).2 = self /\
  (forall name', is_Some (status !! name') <-> is_Some (breakers self !! name')) /\
  (forall name', name' <> name -> status' !! name' = status !! name') /\
  (is_Some (status !! name) ->
   (reset_breaker self name).1 = true /\
   status' !! name = Some (mkBreakerStatus CLOSED 0 None)) /\
  (status !! name = None ->
   (reset_breaker self name).1 = false /\ status' = status).
Proof.
  intros status status'. subst status status'. unfold get_status. cbn [fst snd].
  split; [done|]. split.
  { intros name'. rewrite lookup_fmap. by rewrite fmap_is_Some. }
  unfold reset_breaker. destruct (breakers self !! name) as [b|] eqn:Hb; cbn [fst snd].
  - split; [|split].
    + intros name' Hne. by rewrite !lookup_fmap, store_lookup_ne.
    + intros _. split; [done|]. by rewrite lookup_fmap, store_lookup.
    + rewrite lookup_fmap, Hb. done.
  - split; [done|]. split; [|done].
    rewrite lookup_fmap, Hb. by intros [? [=]].
Qed.

End RegistryProperties.

Section RetryProperties.

Context `{RT : Runtime} {Result : Type}.
Implicit Types (h : RetryHandler) (name : string).
Implicit Types (func : Callable (Result := Result)) (r : Run (Result := Result)).

(** X9. With [max_attempts] zero or negative, [retry_call] never invokes
    the operation and never sleeps: it fails at once by raising [None],
    which Python turns into a [TypeError]. *)
Theorem retry_call_no_attempts h name func r :
  max_attempts h <= 0 ->
  retry_call h name func r
  = (Raise (mkException "exceptions must derive from BaseException"), r).
Proof.
  intros Hn. unfold retry_call, range. by rewrite seqZ_nil by lia.
Qed.

(** X10. With [max_attempts >= 1], whatever the backend does, [retry_call]
    invokes the operation at least once and at most [max_attempts] times,
    and sleeps once between two invocations: never before the first, and
    never after the last. *)
Theorem retry_call_sleeps_between_attempts h name func r :
  1 <= max_attempts h ->
  exists os ds,
    invocations (trace (retry_call h name func r).2) = invocations (trace r) ++ os /\
    sleeps (trace (retry_call h name func r).2) = sleeps (trace r) ++ ds /\
    length os = S (length ds) /\
    (length os <= Z.to_nat (max_attempts h))%nat.
Proof.
  intros Hn.
  destruct (retry_call_run h name func r) as (es & ds & Hs & _ & _ & Hend).
  destruct Hend as [(v & _ & _ & Hinv & Hl1 & Hl2)
                   | [(_ & Hinv & Hl1 & Hl2 & _) | (_ & Hinv & Hl1 & Hl2 & Hmax)]];
    eexists _, ds; (split; [exact Hinv|]); (split; [exact Hs|]);
    rewrite ?length_app, length_fmap; simpl; lia.
Qed.

(** X11. The backoff of [retry_call] grows exponentially: when the jitter
    that [random.uniform(0, 0.1)] draws is never negative, its [i]th sleep,
    counting from 0, lasts at least [base_delay * 2 ^ i]. *)
Theorem retry_call_backoff_lower_bound h name func r :
  (forall w, (0 <= (random_uniform 0 (1 # 10) w).1)%Q) ->
  exists ds,
    sleeps (trace (retry_call h name func r).2) = sleeps (trace r) ++ ds /\
    forall (i : nat) d, ds !! i = Some d ->
      (base_delay h * inject_Z (2 ^ Z.of_nat i) <= d)%Q.
Proof.
  intros Hj.
  destruct (retry_call_run h name func r) as (es & ds & Hs & _ & Hd & _).
  exists ds. split; [done|]. intros i d Hl. destruct (Hd i d Hl) as [w ->].
  specialize (Hj w). lra.
Qed.

(** ** [should_retry] *)

Lemma prefix_inv (p s : string) :
  String.prefix p s = true -> exists b, s = (p ++ b)%string.
Proof.
  revert s. induction p as [|c p IH]; intros s.
  - intros _. by exists s.
  - destruct s as [|c' s]; [discriminate|].
    change (String.prefix (String c p) (String c' s))
      with (if ascii_dec c c' then String.prefix p s else false).
    destruct (ascii_dec c c') as [Hc|Hc]; intros H; [|discriminate H].
    subst c'. destruct (IH s H) as [b ->]. by exists b.
Qed.

Lemma contains_inv (sub s : string) :
  contains sub s = true -> exists a b, s = (a ++ sub ++ b)%string.
Proof.
  induction s as [|c s IH]; cbn [contains]; intros H;
    apply orb_true_iff in H as [H|H]; try done.
  - destruct (prefix_inv _ _ H) as [b ->]. by exists EmptyString, b.
  - destruct (prefix_inv _ _ H) as [b Hb]. exists EmptyString, b. by rewrite Hb.
  - destruct (IH H) as (a & b & ->). by exists (String c a), b.
Qed.

Lemma lower_append (a b : string) : lower (a ++ b) = (lower a ++ lower b)%string.
Proof. induction a as [|c a IH]; simpl; [done | by rewrite IH]. Qed.

Lemma should_retry_loop_false (l : list string) (m : string) :
  should_retry_loop l m = false <-> exists p, p ∈ l /\ contains p m = true.
Proof.
  induction l as [|q l IH]; simpl.
  - split; [done|]. intros (p & Hp & _). by apply elem_of_nil in Hp.
  - destruct (contains q m) eqn:Hq.
    + split; [|done]. intros _. exists q. split; [apply list_elem_of_here | done].
    + rewrite IH. split; intros (p & Hp & Hc); exists p.
      * split; [by apply list_elem_of_further | done].
      * apply elem_of_cons in Hp as [->|Hp]; [congruence | done].
Qed.

(** X13. [should_retry] answers false exactly when the message of the
    exception, with its letters lowered, contains one of ["not found"],
    ["unauthorized"], ["forbidden"], ["bad request"]; in particular for
    every message that contains one of them as written. *)
Theorem should_retry_spec h (e : Exception) :
  (should_retry h e = false <->
   exists p a b, p ∈ non_retryable /\ lower (str e) = (a ++ p ++ b)%string) /\
  (forall p a b, p ∈ non_retryable ->
     should_retry h (mkException (a ++ p ++ b)) = false).
Proof.
  assert (Hspec : forall e', should_retry h e' = false <->
            exists p a b, p ∈ non_retryable /\ lower (str e') = (a ++ p ++ b)%string).
  { intros e'. unfold should_retry. rewrite should_retry_loop_false. split.
    - intros (p & Hp & Hc). destruct (contains_inv _ _ Hc) as (a & b & Hab). eauto.
    - intros (p & a & b & Hp & Hab). exists p. split; [done|].
      rewrite Hab. apply contains_append. }
  split; [apply Hspec|]. intros p a b Hp. apply Hspec.
  exists p, (lower a), (lower b). split; [done|]. simpl.
  rewrite !lower_append. do 2 f_equal.
  unfold non_retryable in Hp.
  repeat (apply elem_of_cons in Hp as [->|Hp]; [reflexivity|]).
  by apply elem_of_nil in Hp.
Qed.

End RetryProperties.

Section GatewayProperties.

Context `{RT : Runtime} {Result : Type}.
Implicit Types (gateway : ServiceMeshGateway) (name : string).
Implicit Types (op func : Callable (Result := Result)) (r : Run (Result := Result)).

Lemma check_circuit_inl name (b : CircuitBreaker) now e :
  check_circuit name b now = inl e -> e = circuit_open_exception name.
Proof.
  unfold check_circuit. destruct (state b); [done| |done].
  destruct (_should_attempt_reset b now); [done|]. by intros [= <-].
Qed.

Lemma retry_call_invocations (h : RetryHandler) name func r :
  exists os,
    invocations (trace (retry_call h name func r).2)
      = invocations (trace r) ++ os /\
    (length os <= Z.to_nat (max_attempts h))%nat.
Proof.
  destruct (retry_call_run h name func r) as (es & ds & _ & _ & _ & Hend).
  destruct Hend as [(v & _ & _ & Hinv & _ & Hlen)
                   | [(_ & Hinv & Hlen & _) | (_ & Hinv & Hlen & _ & Hmax)]];
    eexists; (split; [exact Hinv|]);
    rewrite ?length_app, length_fmap; simpl; lia.
Qed.

(** X12. One forwarded call invokes the backend operation at most
    [1 + max_attempts] times: once behind the breaker and at most
    [max_attempts] times in the retries.  When the operation returns at its
    first invocation, nothing else is invoked. *)
Theorem call_with_mesh_invocation_bound gateway name op r :
  exists os,
    invocations (trace (call_with_mesh gateway name op r).2)
      = invocations (trace r) ++ os /\
    (length os <= 1 + Z.to_nat (max_attempts (retry_handler gateway)))%nat /\
    (forall v, (op (world r)).1 = Return v -> os = [] \/ os = [Return v]).
Proof.
  unfold call_with_mesh.
  pose proof (call_service_unfold (circuit_breaker gateway) name op r) as H.
  destruct (get_breaker (circuit_breaker gateway) name) as [b0 self0]. rewrite H.
  destruct (check_circuit _ _ _) as [e0|b1] eqn:Hc.
  - (* refused: the exception is the one of the open circuit *)
    apply check_circuit_inl in Hc as ->.
    assert (Hopen : contains "Circuit breaker OPEN"
                      (str (circuit_open_exception name)) = true)
      by (apply contains_prefix; reflexivity).
    rewrite Hopen. exists []. simpl. rewrite app_nil_r.
    split; [done|]. split; [lia | auto].
  - destruct (op (world r)) as [[v|e] w'] eqn:Hop; cbn [fst snd].
    + exists [Return v]. simpl. rewrite invocations_app. split; [done|].
      split; [simpl; lia|]. intros v' [= <-]. auto.
    + destruct (retry_call_invocations (retry_handler gateway) name op
                  (mkRun w' (trace r ++ [Invoked (Raise e)]))) as (os & Hinv & Hlen).
      destruct (negb (contains "Circuit breaker OPEN" (str e))).
      * exists (Raise e :: os). cbn [retry_handler set_circuit_breaker].
        destruct (retry_call (retry_handler gateway) name op _) as [[v'|e'] r2];
          cbn [snd] in *; rewrite Hinv; simpl; rewrite invocations_app, <- app_assoc;
          (split; [done|]); (split; [simpl; lia | done]).
      * exists [Raise e]. simpl. rewrite invocations_app.
        split; [done|]. split; [simpl; lia | done].
Qed.

(** ** The route handlers *)

Lemma call_with_mesh_refused gateway name op r (b : CircuitBreaker) t :
  breakers (circuit_breaker gateway) !! name = Some b ->
  state b = OPEN ->
  last_failure_time b = Some t ->
  datetime_now (world r) - t <= timedelta_seconds (timeout_seconds b) ->
  call_with_mesh gateway name op r = (Raise (circuit_open_exception name), gateway, r).
Proof.
  intros Hb Hst Ht Hnow. unfold call_with_mesh.
  rewrite (call_service_refused _ name op r b t Hb Hst Ht Hnow).
  assert (Hopen : contains "Circuit breaker OPEN"
                    (str (circuit_open_exception name)) = true)
    by (apply contains_prefix; reflexivity).
  rewrite Hopen. simpl. by destruct gateway.
Qed.

(** X14. A handler that tells 404 from 503 ([get_product], [add_to_cart],
    [get_order]) answers a failure of the forwarded call with its message as
    detail and with status 404 or 503; every failure it answers with 404 is
    one that [should_retry] classifies as not to be retried. *)
Theorem route_not_found_status gateway name op r (http : HTTPException) :
  (route not_found_or_unavailable gateway name op r).1.1 = inl http ->
  exists e,
    (call_with_mesh gateway name op r).1.1 = Raise e /\
    detail http = str e /\
    (status_code http = 404 \/ status_code http = 503) /\
    (status_code http = 404 <-> contains "not found" (lower (str e)) = true) /\
    (status_code http = 404 -> should_retry (retry_handler gateway) e = false).
Proof.
  unfold route. destruct (call_with_mesh gateway name op r) as [[[v|e] g'] r'];
    cbn [fst]; [done|].
  intros [= <-]. exists e. split; [done|]. unfold not_found_or_unavailable.
  destruct (contains "not found" (lower (str e))) eqn:Hc; simpl.
  - repeat split; auto. intros _. unfold should_retry, non_retryable.
    cbn [should_retry_loop]. by rewrite Hc.
  - repeat split; auto; done.
Qed.

(** X16. While the breaker of its service is [OPEN] inside its timeout,
    every route handler that forwards a single operation to the catalog,
    the cart or the order service (all of them but [create_order], which
    forwards three) answers 503 with the message of the open circuit, also
    the handlers that know 404; the operation is not invoked and the
    gateway is left as it was. *)
Theorem route_open_circuit gateway name op r (b : CircuitBreaker) t
    (on_error : Exception -> HTTPException) :
  on_error ∈ [service_unavailable; not_found_or_unavailable;
              not_in_cart_or_unavailable] ->
  name ∈ ["catalog"; "cart"; "order"]%string ->
  breakers (circuit_breaker gateway) !! name = Some b ->
  state b = OPEN ->
  last_failure_time b = Some t ->
  datetime_now (world r) - t <= timedelta_seconds (timeout_seconds b) ->
  route on_error gateway name op r
  = (inl (mkHTTPException 503 (str (circuit_open_exception name))), gateway, r).
Proof.
  intros Herr Hname Hb Hst Ht Hnow. unfold route.
  rewrite (call_with_mesh_refused gateway name op r b t Hb Hst Ht Hnow).
  do 2 f_equal. f_equal.
  repeat (apply elem_of_cons in Hname as [->|Hname];
          [repeat (apply elem_of_cons in Herr as [->|Herr]; [reflexivity|]);
           by apply elem_of_nil in Herr|]).
  by apply elem_of_nil in Hname.
Qed.

(** X17. The reset route answers 404 exactly when the registry has no
    breaker for the service, and then leaves the gateway as it was.
    Otherwise it answers with a message naming the service, and the next
    call forwarded to that service reaches the backend operation: its
    first invocation is recorded whatever the breaker was before. *)
Theorem reset_circuit_breaker_spec gateway name :
  let '(response, gateway') := reset_circuit_breaker gateway name in
  match breakers (circuit_breaker gateway) !! name with
  | None =>
      response = inl (mkHTTPException 404 "Service not found") /\
      gateway' = gateway
  | Some _ =>
      response = inr ("Circuit breaker reset for " ++ name)%string /\
      retry_handler gateway' = retry_handler gateway /\
      forall op r, exists os,
        invocations (trace (call_with_mesh gateway' name op r).2)
        = invocations (trace r) ++ (op (world r)).1 :: os
  end.
Proof.
  unfold reset_circuit_breaker.
  destruct (breakers (circuit_breaker gateway) !! name) as [b|] eqn:Hb.
  - destruct (reset_breaker (circuit_breaker gateway) name) as [success m] eqn:Hreset.
    assert (success = true) as ->.
    { unfold reset_breaker in Hreset. rewrite Hb in Hreset. by injection Hreset. }
    split; [done|]. split; [done|]. intros op r.
    destruct (call_service_after_reset (circuit_breaker gateway) name op r)
      as [self' Hcall]; [by eexists|].
    rewrite Hreset in Hcall. cbn [snd] in Hcall.
    unfold call_with_mesh. cbn [circuit_breaker set_circuit_breaker]. rewrite Hcall.
    destruct (op (world r)) as [[v|e] w']; cbn [fst snd].
    + exists []. simpl. by rewrite invocations_app.
    + destruct (retry_call_invocations (retry_handler gateway) name op
                  (mkRun w' (trace r ++ [Invoked (Raise e)]))) as (os & Hinv & _).
      destruct (negb (contains "Circuit breaker OPEN" (str e))).
      * exists os. cbn [retry_handler set_circuit_breaker].
        destruct (retry_call (retry_handler gateway) name op _) as [[v'|e'] r2];
          cbn [snd] in *; rewrite Hinv; simpl; by rewrite invocations_app, <- app_assoc.
      * exists []. simpl. by rewrite invocations_app.
  - unfold reset_breaker. rewrite Hb. split; [done|]. by destruct gateway.
Qed.

Section CreateOrderProperties.

Context {Item : Type} (cart_items : Result -> list Item).

(** X15. What [create_order] answers.  An order is returned only when the
    cart was fetched and not empty, the order operation, given the items of
    the cart, returned it, and the cart was cleared.  The answer is 400
    exactly when the cart was fetched and empty, and then nothing more is
    forwarded.  Every other answer is a 503 carrying the message of the
    forwarded call that failed: fetching the cart, creating the order, or
    clearing the cart after the order was created. *)
Theorem create_order_spec gateway
    (get_cart_op : Callable (Result := Result))
    (create_order_op : list Item -> Callable (Result := Result))
    (clear_cart_op : Callable (Result := Result)) r :
  let '(response, gateway', r') :=
    create_order cart_items gateway get_cart_op create_order_op clear_cart_op r in
  let '(fetched, g1, r1) := call_with_mesh gateway "cart" get_cart_op r in
  match response with
  | inr order_result =>
      exists cart g2 r2 cleared,
        fetched = Return cart /\ cart_items cart <> [] /\
        call_with_mesh g1 "order" (create_order_op (cart_items cart)) r1
          = (Return order_result, g2, r2) /\
        call_with_mesh g2 "cart" clear_cart_op r2 = (Return cleared, gateway', r')
  | inl http =>
      (http = mkHTTPException 400 "Cart is empty" /\
       (exists cart, fetched = Return cart /\ cart_items cart = []) /\
       gateway' = g1 /\ r' = r1)
      \/
      (exists e, http = mkHTTPException 503 (str e) /\
         (fetched = Raise e /\ gateway' = g1 /\ r' = r1
          \/
          exists cart, fetched = Return cart /\ cart_items cart <> [] /\
            (call_with_mesh g1 "order" (create_order_op (cart_items cart)) r1
               = (Raise e, gateway', r')
             \/
             exists order_result g2 r2,
               call_with_mesh g1 "order" (create_order_op (cart_items cart)) r1
                 = (Return order_result, g2, r2) /\
               call_with_mesh g2 "cart" clear_cart_op r2 = (Raise e, gateway', r'))))
  end.
Proof.
  unfold create_order.
  destruct (call_with_mesh gateway "cart" get_cart_op r) as [[[cart|e] g1] r1].
  - destruct (cart_items cart) as [|item items] eqn:Hitems.
    + left. repeat split; eauto.
    + destruct (call_with_mesh g1 "order" (create_order_op (item :: items)) r1)
        as [[[order_result|e] g2] r2] eqn:Horder.
      * destruct (call_with_mesh g2 "cart" clear_cart_op r2)
          as [[[cleared|e] g3] r3] eqn:Hclear.
        -- exists cart, g2, r2, cleared. rewrite Hitems. repeat split; done.
        -- right. exists e. split; [done|]. right. exists cart. rewrite Hitems.
           repeat split; try done. right. eauto.
      * right. exists e. split; [done|]. right. exists cart. rewrite Hitems.
        repeat split; try done. by left.
  - right. exists e. split; [done|]. by left.
Qed.

End CreateOrderProperties.

End GatewayProperties.

(** * The properties on the simulated world *)

Lemma sim_tripped_reachable : reachable string sim_tripped.1.
Proof.
  exact (reachable_call_service _ _ _ _
          (reachable_call_service _ _ _ _
            (reachable_call_service _ _ _ _ (reachable_empty 3 30)))).
Qed.

Lemma call_service_open_fails_fast_witness :
  call_service sim_tripped.1 "catalog" (always_fails database_error) sim_tripped.2
    = (Raise (circuit_open_exception "catalog"), sim_tripped.1, sim_tripped.2)
  /\ contains "catalog" (str (circuit_open_exception "catalog")) = true.
Proof.
  apply (call_service_open_fails_fast sim_tripped.1 "catalog"
           (always_fails database_error) sim_tripped.2
           (mkCircuitBreaker "catalog" OPEN 3 (Some 3) 3 30) 3).
  - vm_compute. reflexivity.
  - reflexivity.
  - reflexivity.
  - vm_compute. discriminate.
Defined.

Lemma reachable_open_failure_count_witness :
  failure_threshold (mkCircuitBreaker "catalog" OPEN 3 (Some 3) 3 30)
  <= failure_count (mkCircuitBreaker "catalog" OPEN 3 (Some 3) 3 30).
Proof.
  apply (reachable_open_failure_count (Result := string) sim_tripped.1 "catalog").
  - exact sim_tripped_reachable.
  - vm_compute. reflexivity.
  - reflexivity.
Defined.

Lemma reachable_open_last_failure_time_witness :
  exists t, last_failure_time (mkCircuitBreaker "catalog" OPEN 3 (Some 3) 3 30) = Some t /\
    forall now, _should_attempt_reset (mkCircuitBreaker "catalog" OPEN 3 (Some 3) 3 30) now
                = (timedelta_seconds 30 <? now - t).
Proof.
  apply (reachable_open_last_failure_time (Result := string) sim_tripped.1 "catalog").
  - exact sim_tripped_reachable.
  - vm_compute. reflexivity.
  - reflexivity.
Defined.

Lemma call_service_probe_after_timeout_witness :
  exists self' b',
    call_service sim_tripped.1 "catalog" (fails_first 3 database_error "ok") sim_later
      = (Return "ok", self', mkRun (mkSimWorld 40000001 4) [Invoked (Return "ok")]) /\
    breakers self' !! "catalog" = Some b' /\
    state b' = CLOSED /\ failure_count b' = 0.
Proof.
  apply (call_service_probe_after_timeout sim_tripped.1 "catalog"
           (fails_first 3 database_error "ok") sim_later
           (mkCircuitBreaker "catalog" OPEN 3 (Some 3) 3 30) 3).
  - exact sim_tripped_reachable.
  - vm_compute. reflexivity.
  - reflexivity.
  - reflexivity.
  - vm_compute. reflexivity.
Defined.

(** The failing half of the probe needs the registry to be reachable: a
    breaker made [OPEN] by hand below its threshold stays [HALF_OPEN] after
    a failed probe.  No sequence of operations builds such a breaker. *)
Example call_service_probe_hand_made_breaker :
  let b := mkCircuitBreaker "catalog" OPEN 0 (Some 3) 3 30 in
  let self := mkCircuitBreakerManager {[ "catalog" := b ]} 3 30 in
  let res := call_service self "catalog" (always_fails database_error) sim_later in
  state <$> breakers res.1.2 !! "catalog" = Some HALF_OPEN.
Proof. vm_compute. reflexivity. Qed.

Lemma call_service_failure_bookkeeping_witness :
  exists self' b',
    call_service CircuitBreakerManager_init "catalog" (always_fails database_error) sim_start
      = (Raise database_error, self',
         mkRun (mkSimWorld 1 1) [Invoked (Raise database_error)]) /\
    breakers self' !! "catalog" = Some b' /\
    failure_count b' = 0 + 1 /\
    last_failure_time b' = Some 1 /\
    (state b' = OPEN <-> 3 <= 0 + 1).
Proof.
  apply (call_service_failure_bookkeeping CircuitBreakerManager_init "catalog"
           (always_fails database_error) sim_start database_error (mkSimWorld 1 1)).
  - left. vm_compute. discriminate.
  - reflexivity.
Defined.

Lemma retry_call_always_failing_witness :
  exists es e,
    invocations (trace (retry_call (mkRetryHandler 3 1) "catalog"
                          (always_fails database_error) sim_start).2)
      = [] ++ (Raise <$> es) /\
    length es = 3%nat /\
    es !! 2%nat = Some e /\
    (retry_call (mkRetryHandler 3 1) "catalog"
       (always_fails database_error) sim_start).1 = Raise e.
Proof.
  apply (retry_call_always_failing (mkRetryHandler 3 1) "catalog"
           (always_fails database_error) sim_start).
  - intros w. exists database_error. reflexivity.
  - simpl. lia.
Defined.

(** C8 fails on the code for [N >= 1026]: with [max_attempts = 1026] and a
    backend operation that fails on every invocation, [retry_call] makes
    1025 invocations, not 1026, and what it raises is the [OverflowError] of
    the delay computed after the 1025th failure, not the failure of the
    backend.  Up to [N = 1025] the claim holds
    ([retry_call_always_failing]). *)
Example retry_call_overflows_at_1026_attempts :
  (exists es,
     invocations (trace (retry_call (mkRetryHandler 1026 0) "catalog"
                           (always_fails database_error) sim_start).2)
       = invocations (trace sim_start) ++ (Raise <$> es) /\
     length es = 1025%nat /\
     (retry_call (mkRetryHandler 1026 0) "catalog"
        (always_fails database_error) sim_start).1 = Raise overflow_error) /\
  overflow_error <> database_error.
Proof.
  split; [|discriminate].
  apply (retry_call_overflow (mkRetryHandler 1026 0) "catalog"
           (always_fails database_error) sim_start).
  - intros w. exists database_error. reflexivity.
  - cbn [max_attempts]. lia.
Qed.

Lemma retry_call_third_attempt_succeeds_witness :
  (retry_call (mkRetryHandler 3 1) "catalog"
     (fails_first 2 database_error "ok") sim_start).1 = Return "ok".
Proof.
  pose proof (retry_call_third_attempt_succeeds "catalog"
                (fails_first 2 database_error "ok") 1 sim_start
                (mkRun (mkSimWorld 1 1) [Invoked (Raise database_error)])
                (mkRun (mkSimWorld 1000002 2)
                   [Invoked (Raise database_error); Slept (1 * inject_Z 1 + 0);
                    Invoked (Raise database_error)])
                (mkRun (mkSimWorld 3000003 3)
                   [Invoked (Raise database_error); Slept (1 * inject_Z 1 + 0);
                    Invoked (Raise database_error); Slept (1 * inject_Z 2 + 0);
                    Invoked (Return "ok")])
                database_error database_error "ok") as H.
  simpl in H. destruct H as [H _]; [reflexivity | reflexivity | reflexivity |].
  rewrite H. reflexivity.
Defined.

Lemma call_with_mesh_spec_witness :
  call_with_mesh (mkServiceMeshGateway sim_tripped.1 (mkRetryHandler 3 1)) "catalog"
    (always_fails database_error) sim_tripped.2
  = (Raise (circuit_open_exception "catalog"),
     mkServiceMeshGateway sim_tripped.1 (mkRetryHandler 3 1), sim_tripped.2).
Proof.
  apply (proj2 (call_with_mesh_spec
                  (mkServiceMeshGateway sim_tripped.1 (mkRetryHandler 3 1)) "catalog"
                  (always_fails database_error) sim_tripped.2)
           (mkCircuitBreaker "catalog" OPEN 3 (Some 3) 3 30) 3).
  - vm_compute. reflexivity.
  - reflexivity.
  - reflexivity.
  - vm_compute. discriminate.
Defined.

(** The scenario of the specification: one forwarded call whose backend
    fails once; the retry succeeds at once and the breaker keeps the one
    failure it counted. *)
Example call_with_mesh_retry_scenario :
  let '(res, self', r') :=
    call_with_mesh ServiceMeshGateway_init "catalog"
      (fails_first 1 database_error "ok") sim_start in
  res = Return "ok" /\
  breakers (circuit_breaker self') !! "catalog"
    = Some (mkCircuitBreaker "catalog" CLOSED 1 (Some 1) 3 30) /\
  invocations (trace r') = [Raise database_error; Return "ok"].
Proof. vm_compute. repeat split. Qed.

(** The scenario of the specification: after three failing forwarded calls
    the breaker is open and a fourth call is refused without an invocation. *)
Example call_with_mesh_tripped_scenario :
  let '(res, self', r') :=
    call_with_mesh (mkServiceMeshGateway sim_tripped.1 (mkRetryHandler 3 1)) "catalog"
      (always_fails database_error) sim_tripped.2 in
  res = Raise (circuit_open_exception "catalog") /\
  circuit_breaker self' = sim_tripped.1 /\
  r' = sim_tripped.2.
Proof. vm_compute. repeat split. Qed.

(** C2 fails on the code: the gateway tells the refusal of the breaker
    from a failure of the backend by looking for ["Circuit breaker OPEN"] in
    the message.  The lookup of an order whose id contains these words
    fails with a message that contains them: the closed breaker let the
    call through and counted the failure, yet the failure is not escalated
    to [retry_call], against the comment of line 48, "If circuit breaker
    allows, try with retry logic". *)
Example call_with_mesh_order_lookup_not_retried :
  let '(first, m1, r1) :=
    call_service CircuitBreakerManager_init "order"
      (always_fails order_lookup_error) sim_start in
  let '(res, self', r') :=
    call_with_mesh ServiceMeshGateway_init "order"
      (always_fails order_lookup_error) sim_start in
  first = Raise order_lookup_error /\
  order_lookup_error <> circuit_open_exception "order" /\
  invocations (trace r1) = [Raise order_lookup_error] /\
  failure_count <$> breakers m1 !! "order" = Some 1 /\
  res = Raise order_lookup_error /\
  invocations (trace r') = [Raise order_lookup_error] /\
  (res, r') <> retry_call (retry_handler ServiceMeshGateway_init) "order"
                 (always_fails order_lookup_error) r1.
Proof. vm_compute. repeat split; discriminate. Qed.

(** The same with another message: a backend failure that is not the
    circuit-open exception, raised by an operation the closed breaker let
    through, is not escalated to [retry_call] when its message contains the
    words ["Circuit breaker OPEN"]. *)
Lemma call_with_mesh_marked_failure_not_retried :
  let '(first, m1, r1) :=
    call_service CircuitBreakerManager_init "catalog"
      (always_fails upstream_error) sim_start in
  let '(res, self', r') :=
    call_with_mesh ServiceMeshGateway_init "catalog"
      (always_fails upstream_error) sim_start in
  first = Raise upstream_error /\
  upstream_error <> circuit_open_exception "catalog" /\
  invocations (trace r1) = [Raise upstream_error] /\
  invocations (trace r') = [Raise upstream_error] /\
  (res, r') <> retry_call (retry_handler ServiceMeshGateway_init) "catalog"
                 (always_fails upstream_error) r1.
Proof. vm_compute. repeat split; discriminate. Qed.

(** C4 fails on the code: [should_retry] classifies the failure of a
    product lookup as not retryable, yet [retry_call] never consults it and
    invokes the failing operation [max_attempts] times. *)
Example retry_call_ignores_should_retry :
  let h := mkRetryHandler 3 1 in
  let res := retry_call h "catalog" (always_fails product_error) sim_start in
  should_retry h product_error = false /\
  invocations (trace res.2) = [Raise product_error; Raise product_error; Raise product_error] /\
  res.1 = Raise product_error.
Proof. vm_compute. repeat split. Qed.

(** C6 as stated does not hold: the failure that [call_service] re-raises
    is the backend's exception as it was raised, and its message does not
    carry the service name. *)
Lemma call_service_failure_not_tagged :
  ~ exists e',
      (call_service CircuitBreakerManager_init "catalog"
         (always_fails database_error) sim_start).1.1 = Raise e' /\
      contains "catalog" (str e') = true.
Proof.
  intros (e' & Hraise & Htag). vm_compute in Hraise.
  injection Hraise as <-. vm_compute in Htag. discriminate.
Qed.

(** * The further properties on the simulated world *)

Lemma call_service_success_bookkeeping_witness :
  exists self' b',
    call_service CircuitBreakerManager_init "catalog"
      (fails_first 0 database_error "ok") sim_start
      = (Return "ok", self', mkRun (mkSimWorld 1 1) [Invoked (Return "ok")]) /\
    breakers self' !! "catalog" = Some b' /\
    state b' = CLOSED /\
    failure_count b' = 0 /\
    last_failure_time b' = None /\
    failure_threshold b' = 3 /\
    timeout_seconds b' = 30.
Proof.
  apply (call_service_success_bookkeeping CircuitBreakerManager_init "catalog"
           (fails_first 0 database_error "ok") sim_start "ok" (mkSimWorld 1 1)).
  - left. vm_compute. discriminate.
  - reflexivity.
Defined.

Lemma reachable_breaker_identity_witness :
  service_name (mkCircuitBreaker "catalog" OPEN 3 (Some 3) 3 30) = "catalog" /\
  failure_threshold (mkCircuitBreaker "catalog" OPEN 3 (Some 3) 3 30)
    = self_failure_threshold sim_tripped.1 /\
  timeout_seconds (mkCircuitBreaker "catalog" OPEN 3 (Some 3) 3 30)
    = self_timeout_seconds sim_tripped.1.
Proof.
  apply (reachable_breaker_identity (Result := string) sim_tripped.1 "catalog").
  - exact sim_tripped_reachable.
  - vm_compute. reflexivity.
Defined.

Lemma reachable_breaker_count_witness :
  let b := mkCircuitBreaker "catalog" OPEN 3 (Some 3) 3 30 in
  0 <= failure_count b /\
  (0 < failure_count b -> is_Some (last_failure_time b)) /\
  (state b <> CLOSED -> failure_threshold b <= failure_count b) /\
  (0 < failure_threshold b ->
   (state b = CLOSED <-> failure_count b < failure_threshold b)).
Proof.
  apply (reachable_breaker_count (Result := string) sim_tripped.1 "catalog").
  - exact sim_tripped_reachable.
  - vm_compute. reflexivity.
Defined.

(** A probe that is abandoned leaves the breaker [HALF_OPEN]: the registry
    after the three failures, a call after the timeout whose operation is
    cancelled. *)
Example call_service_abandoned_probe :
  state <$> breakers (call_service_abandoned sim_tripped.1 "catalog" sim_later)
              !! "catalog"
  = Some HALF_OPEN.
Proof. vm_compute. reflexivity. Qed.

Lemma call_service_each_failing_witness :
  let calls := [(always_fails database_error, sim_start);
                (always_fails database_error, sim_start);
                (always_fails database_error, sim_later)] in
  let b' := (get_breaker (call_service_each CircuitBreakerManager_init "catalog" calls)
               "catalog").1 in
  failure_count b' = 0 + 3 /\
  failure_threshold b' = 3 /\
  state b' = (if failure_threshold b' <=? failure_count b' then OPEN else CLOSED) /\
  (calls <> [] -> is_Some (last_failure_time b')).
Proof.
  apply (call_service_each_failing CircuitBreakerManager_init "catalog"
           [(always_fails database_error, sim_start);
            (always_fails database_error, sim_start);
            (always_fails database_error, sim_later)]).
  - repeat constructor; exists database_error; reflexivity.
  - reflexivity.
  - vm_compute. reflexivity.
  - vm_compute. discriminate.
Defined.

Lemma reset_breaker_then_call_witness :
  exists self',
    call_service (reset_breaker sim_tripped.1 "catalog").2 "catalog"
      (always_fails database_error) sim_tripped.2
    = (Raise database_error, self',
       mkRun (mkSimWorld 4 4)
         (trace sim_tripped.2 ++ [Invoked (Raise database_error)])).
Proof.
  apply (reset_breaker_then_call sim_tripped.1 "catalog"
           (always_fails database_error) sim_tripped.2).
  vm_compute. eexists. reflexivity.
Defined.

Lemma retry_call_no_attempts_witness :
  retry_call (mkRetryHandler 0 1) "catalog" (always_fails database_error) sim_start
  = (Raise (mkException "exceptions must derive from BaseException"), sim_start).
Proof.
  apply (retry_call_no_attempts (mkRetryHandler 0 1) "catalog"
           (always_fails database_error) sim_start).
  simpl. lia.
Defined.

Lemma retry_call_sleeps_between_attempts_witness :
  exists os ds,
    invocations (trace (retry_call (mkRetryHandler 3 1) "catalog"
                          (fails_first 1 database_error "ok") sim_start).2)
      = [] ++ os /\
    sleeps (trace (retry_call (mkRetryHandler 3 1) "catalog"
                     (fails_first 1 database_error "ok") sim_start).2)
      = [] ++ ds /\
    length os = S (length ds) /\
    (length os <= 3)%nat.
Proof.
  apply (retry_call_sleeps_between_attempts (mkRetryHandler 3 1) "catalog"
           (fails_first 1 database_error "ok") sim_start).
  simpl. lia.
Defined.

Lemma retry_call_backoff_lower_bound_witness :
  exists ds,
    sleeps (trace (retry_call (mkRetryHandler 3 1) "catalog"
                     (always_fails database_error) sim_start).2)
      = sleeps (trace sim_start) ++ ds /\
    forall (i : nat) d, ds !! i = Some d -> (1 * inject_Z (2 ^ Z.of_nat i) <= d)%Q.
Proof.
  apply (retry_call_backoff_lower_bound (mkRetryHandler 3 1) "catalog"
           (always_fails database_error) sim_start).
  intros w. simpl. lra.
Defined.

Lemma route_not_found_status_witness :
  exists e,
    (call_with_mesh ServiceMeshGateway_init "catalog"
       (always_fails product_error) sim_start).1.1 = Raise e /\
    "Product 999 not found" = str e /\
    (404 = 404 \/ 404 = 503) /\
    (404 = 404 <-> contains "not found" (lower (str e)) = true) /\
    (404 = 404 -> should_retry (mkRetryHandler 3 1) e = false).
Proof.
  apply (route_not_found_status ServiceMeshGateway_init "catalog"
           (always_fails product_error) sim_start
           (mkHTTPException 404 "Product 999 not found")).
  vm_compute. reflexivity.
Defined.

Lemma route_open_circuit_witness :
  get_product (mkServiceMeshGateway sim_tripped.1 (mkRetryHandler 3 1))
    (always_fails product_error) sim_tripped.2
  = (inl (mkHTTPException 503 (str (circuit_open_exception "catalog"))),
     mkServiceMeshGateway sim_tripped.1 (mkRetryHandler 3 1), sim_tripped.2).
Proof.
  apply (route_open_circuit (mkServiceMeshGateway sim_tripped.1 (mkRetryHandler 3 1))
           "catalog" (always_fails product_error) sim_tripped.2
           (mkCircuitBreaker "catalog" OPEN 3 (Some 3) 3 30) 3
           not_found_or_unavailable).
  - apply list_elem_of_further, list_elem_of_here.
  - apply list_elem_of_here.
  - vm_compute. reflexivity.
  - reflexivity.
  - reflexivity.
  - vm_compute. discriminate.
Defined.
